(** * A bounded, concurrent link-following crawler

    Shallow embedding of [async/examples/web_crawler.py]: the scope filter
    [UrlFilterer.filter_url], the link collector [UrlParser], and the crawl
    coordination engine [Crawler] (frontier, admission control, worker pool,
    termination by [todo.join()]).

    The crawler runs on asyncio's single-threaded cooperative scheduler: a
    coroutine runs without interruption until it really suspends.  The only
    suspension points of the program are [todo.get()] on an empty queue,
    [asyncio.sleep], [client.get] and [todo.join()]; [todo.put] on an
    unbounded queue never suspends, so [on_found_links] runs as one block.
    The system is therefore modelled as a transition system whose actions are
    the blocks between two suspension points. *)

From Stdlib Require Import ZArith Lia Ascii String.
From stdpp Require Import gmap strings list.

Open Scope Z_scope.

(** ** Exceptions and fallible results *)

Inductive exn : Type :=
| ValueError
| TypeError
| TransportError.

Inductive Res (A : Type) : Type :=
| Ok (a : A)
| Raise (e : exn).
Arguments Ok {A} a.
Arguments Raise {A} e.

#[global] Instance Res_ret : MRet Res := fun _ a => Ok a.
#[global] Instance Res_bind : MBind Res := fun _ _ f m =>
  match m with
  | Ok a => f a
  | Raise e => Raise e
  end.

Definition is_Ok {A} (r : Res A) : bool :=
  match r with Ok _ => true | Raise _ => false end.

(** A [for] loop whose body may raise: the first exception leaves the loop. *)
Fixpoint for_each {A S} (body : S -> A -> Res S) (st : S) (l : list A) : Res S :=
  match l with
  | [] => Ok st
  | x :: rest =>
      match body st x with
      | Ok st' => for_each body st' rest
      | Raise e => Raise e
      end
  end.

(** ** Python string operations used by the scope filter

    Strings stand for Python [str] values made of code points below 256. *)

Module PyStr.

Definition is_empty (s : string) : bool :=
  match s with EmptyString => true | String _ _ => false end.

(** [c in s] *)
Fixpoint contains (c : ascii) (s : string) : bool :=
  match s with
  | EmptyString => false
  | String a r => if Ascii.eqb a c then true else contains c r
  end.

(** [s.partition(c)]: head, whether [c] was found, tail. *)
Fixpoint partition (c : ascii) (s : string) : string * bool * string :=
  match s with
  | EmptyString => (EmptyString, false, EmptyString)
  | String a r =>
      if Ascii.eqb a c then (EmptyString, true, r)
      else let '(h, f, t) := partition c r in (String a h, f, t)
  end.

(** [s.rpartition(c)]; when [c] is absent the whole string is the tail. *)
Fixpoint rpartition (c : ascii) (s : string) : string * bool * string :=
  match s with
  | EmptyString => (EmptyString, false, EmptyString)
  | String a r =>
      let '(h, f, t) := rpartition c r in
      if f then (String a h, true, t)
      else if Ascii.eqb a c then (EmptyString, true, r)
      else (EmptyString, false, String a t)
  end.

(** [s.split(c)] *)
Fixpoint split (c : ascii) (s : string) : list string :=
  match s with
  | EmptyString => [EmptyString]
  | String a r =>
      if Ascii.eqb a c then EmptyString :: split c r
      else match split c r with
           | x :: xs => String a x :: xs
           | [] => [String a EmptyString]
           end
  end.

(** [sep.join(l)] *)
Fixpoint join (sep : string) (l : list string) : string :=
  match l with
  | [] => EmptyString
  | [x] => x
  | x :: rest => x +:+ sep +:+ join sep rest
  end.

Fixpoint lstrip (p : ascii -> bool) (s : string) : string :=
  match s with
  | EmptyString => EmptyString
  | String a r => if p a then lstrip p r else s
  end.

Fixpoint rstrip (p : ascii -> bool) (s : string) : string :=
  match s with
  | EmptyString => EmptyString
  | String a r =>
      let r' := rstrip p r in
      if p a && is_empty r' then EmptyString else String a r'
  end.

Definition strip (p : ascii -> bool) (s : string) : string := lstrip p (rstrip p s).

(** [s.replace(c, "")] for every [c] that satisfies [p] *)
Fixpoint remove (p : ascii -> bool) (s : string) : string :=
  match s with
  | EmptyString => EmptyString
  | String a r => if p a then remove p r else String a (remove p r)
  end.

Fixpoint all (p : ascii -> bool) (s : string) : bool :=
  match s with
  | EmptyString => true
  | String a r => p a && all p r
  end.

Fixpoint map (f : ascii -> ascii) (s : string) : string :=
  match s with
  | EmptyString => EmptyString
  | String a r => String (f a) (map f r)
  end.

Definition startswith (p s : string) : bool := String.prefix p s.

(** [s[n:]] *)
Fixpoint skip (n : nat) (s : string) : string :=
  match n, s with
  | S n', String _ r => skip n' r
  | _, _ => s
  end.

(** [s[:-1]] *)
Fixpoint drop_last (s : string) : string :=
  match s with
  | EmptyString => EmptyString
  | String a r => if is_empty r then EmptyString else String a (drop_last r)
  end.

Definition code (a : ascii) : N := N_of_ascii a.
Definition between (lo hi : N) (a : ascii) : bool :=
  (lo <=? code a)%N && (code a <=? hi)%N.
Definition is_upper : ascii -> bool := between 65 90.
Definition is_lower : ascii -> bool := between 97 122.
Definition is_alpha (a : ascii) : bool := is_upper a || is_lower a.
Definition is_digit : ascii -> bool := between 48 57.
Definition to_lower (a : ascii) : ascii :=
  if is_upper a then ascii_of_N (code a + 32) else a.
Definition lower : string -> string := map to_lower.
Definition isascii : string -> bool := all (between 0 127).

Definition in_list (s : string) (l : list string) : bool :=
  existsb (String.eqb s) l.

End PyStr.

(** ** [ipaddress.ip_address] on a string

    Whether the string is an address, and of which version.  The value of
    the address is computed only as far as the parser itself uses it: the
    dotted tail of an IPv6 address is turned into two hextets. *)

Module Ipaddress.
Import PyStr.

Inductive version : Type := V4 | V6.

Definition hex_digit (a : ascii) : bool :=
  is_digit a || between 97 102 a || between 65 70 a.

(** [int(s, 10)] on decimal digits *)
Fixpoint decimal (acc : N) (s : string) : N :=
  match s with
  | EmptyString => acc
  | String a r => decimal (acc * 10 + (code a - 48))%N r
  end.

(** ['%x' % n] for [n < 65536] *)
Definition hex_char (d : N) : ascii :=
  if (d <? 10)%N then ascii_of_N (48 + d) else ascii_of_N (87 + d).

Fixpoint hex_from (fuel : nat) (n : N) (acc : string) : string :=
  match fuel with
  | O => acc
  | S fuel' =>
      let acc := String (hex_char (n mod 16)) acc in
      if (n / 16 =? 0)%N then acc else hex_from fuel' (n / 16)%N acc
  end.

Definition hex (n : N) : string := hex_from 4 n EmptyString.

(** [IPv4Address._parse_octet] *)
Definition parse_octet (octet_str : string) : option N :=
  if is_empty octet_str then None
  else if negb (all is_digit octet_str) then None
  else if (3 <? String.length octet_str)%nat then None
  else if negb (String.eqb octet_str "0") && startswith "0" octet_str then None
  else
    let octet_int := decimal 0 octet_str in
    if (255 <? octet_int)%N then None else Some octet_int.

(** [IPv4Address(address)._ip]; [None] stands for [AddressValueError]. *)
Definition ipv4 (address : string) : option N :=
  if contains "/" address then None
  else if is_empty address then None
  else
    let octets := split "." address in
    if negb (List.length octets =? 4)%nat then None
    else foldl (fun acc octet_str =>
                  ip ← acc; octet ← parse_octet octet_str; Some (ip * 256 + octet)%N)
               (Some 0%N) octets.

(** [IPv6Address._parse_hextet] returns ([true]) or raises. *)
Definition parse_hextet (hextet_str : string) : bool :=
  all hex_digit hextet_str
  && (String.length hextet_str <=? 4)%nat
  && negb (is_empty hextet_str).

(** [IPv6Address._split_scope_id], the address part. *)
Definition split_scope_id (ip_str : string) : option string :=
  let '(addr, sep, scope_id) := partition "%" ip_str in
  if negb sep then Some addr
  else if is_empty scope_id || contains "%" scope_id then None
  else Some addr.

(** [IPv6Address._ip_int_from_string] from the test on the number of
    parts on: returns ([true]) or raises. *)
Definition hextets_ok (parts : list string) : bool :=
  if (9 <? List.length parts)%nat then false
  else
    let first := List.hd EmptyString parts in
    let last := List.last parts EmptyString in
    match filter (fun i => is_empty (List.nth i parts EmptyString))
                 (seq 1 (List.length parts - 2)) with
    | _ :: _ :: _ => false
    | [skip_index] =>
        let parts_hi := skip_index in
        let parts_lo := (List.length parts - skip_index - 1)%nat in
        let parts_hi' := if is_empty first then (parts_hi - 1)%nat else parts_hi in
        let parts_lo' := if is_empty last then (parts_lo - 1)%nat else parts_lo in
        if is_empty first && negb (parts_hi' =? 0)%nat then false
        else if is_empty last && negb (parts_lo' =? 0)%nat then false
        else if (8 <=? parts_hi' + parts_lo')%nat then false
        else forallb parse_hextet (take parts_hi' parts)
             && forallb parse_hextet (drop (List.length parts - parts_lo') parts)
    | [] =>
        if negb (List.length parts =? 8)%nat then false
        else if is_empty first then false
        else if is_empty last then false
        else forallb parse_hextet parts
    end.

(** [IPv6Address(address)] returns ([true]) or raises. *)
Definition ipv6 (address : string) : bool :=
  if contains "/" address then false
  else
    match split_scope_id address with
    | None => false
    | Some ip_str =>
        if is_empty ip_str then false
        else
          let parts := split ":" ip_str in
          if (List.length parts <? 3)%nat then false
          else
            let tail := List.last parts EmptyString in
            if contains "." tail then
              match ipv4 tail with
              | None => false
              | Some ipv4_int =>
                  hextets_ok (removelast parts
                              ++ [hex (N.land (N.shiftr ipv4_int 16) 65535);
                                  hex (N.land ipv4_int 65535)])
              end
            else hextets_ok parts
    end.

(** [ip_address(address)]; [None] stands for [ValueError]. *)
Definition ip_address (address : string) : option version :=
  match ipv4 address with
  | Some _ => Some V4
  | None => if ipv6 address then Some V6 else None
  end.

End Ipaddress.

(** ** [urllib.parse]

    The six functions the filter relies on, after CPython's
    [Lib/urllib/parse.py] for [str] arguments.  [urlsplit] takes its two
    checks of the net location as arguments: the validation of a bracketed
    host, which is [check_bracketed_host] below, and the NFKC test that
    [_checknetloc] performs on a net location outside ASCII, which is
    [nfkc_ok] below. *)

Module Urllib.
Import PyStr.

Definition uses_relative : list string :=
  [""; "ftp"; "http"; "gopher"; "nntp"; "imap"; "wais"; "file"; "https";
   "shttp"; "mms"; "prospero"; "rtsp"; "rtspu"; "sftp"; "svn"; "svn+ssh";
   "ws"; "wss"].

Definition uses_netloc : list string :=
  [""; "ftp"; "http"; "gopher"; "nntp"; "telnet"; "imap"; "wais"; "file";
   "mms"; "https"; "shttp"; "snews"; "prospero"; "rtsp"; "rtspu"; "rsync";
   "svn"; "svn+ssh"; "sftp"; "nfs"; "git"; "git+ssh"; "ws"; "wss"].

Definition uses_params : list string :=
  [""; "ftp"; "hdl"; "prospero"; "http"; "imap"; "https"; "shttp"; "rtsp";
   "rtspu"; "sip"; "sips"; "mms"; "sftp"; "tel"].

(** [scheme_chars] *)
Definition scheme_char (a : ascii) : bool :=
  is_alpha a || is_digit a
  || Ascii.eqb a "+" || Ascii.eqb a "-" || Ascii.eqb a ".".

(** [_WHATWG_C0_CONTROL_OR_SPACE] *)
Definition c0_control_or_space : ascii -> bool := between 0 32.

(** [_UNSAFE_URL_BYTES_TO_REMOVE]: tab, carriage return, line feed *)
Definition unsafe_byte (a : ascii) : bool :=
  (code a =? 9)%N || (code a =? 13)%N || (code a =? 10)%N.

Record SplitResult : Type := mkSplit {
  s_scheme : string; s_netloc : string; s_path : string;
  s_query : string; s_fragment : string
}.

Record ParseResult : Type := mkParse {
  scheme : string; netloc : string; path : string;
  params : string; query : string; fragment : string
}.

(** [_splitnetloc(url, 2)] on [url[2:]]: up to the first of [/?#]. *)
Fixpoint splitnetloc (s : string) : string * string :=
  match s with
  | EmptyString => (EmptyString, EmptyString)
  | String a r =>
      if Ascii.eqb a "/" || Ascii.eqb a "?" || Ascii.eqb a "#"
      then (EmptyString, s)
      else let '(d, rest) := splitnetloc r in (String a d, rest)
  end.

(** [_splitparams] *)
Definition splitparams (url : string) : string * string :=
  if contains "/" url then
    let '(h, _, t) := rpartition "/" url in
    match partition ";" t with
    | (b, true, a) => (h +:+ "/" +:+ b, a)
    | (_, false, _) => (url, EmptyString)
    end
  else
    match partition ";" url with
    | (b, true, a) => (b, a)
    | (_, false, _) => (drop_last url, url)
    end.

(** The regular expression [\Av[a-fA-F0-9]+\..+\Z] of
    [_check_bracketed_host], in which a dot matches all but a line feed. *)
Definition ipvfuture (hostname : string) : bool :=
  match hostname with
  | String "v" (String a _ as rest) =>
      Ipaddress.hex_digit a
      && match lstrip Ipaddress.hex_digit rest with
         | String "." tail => negb (is_empty tail) && negb (contains "010" tail)
         | _ => false
         end
  | _ => false
  end.

(** [_check_bracketed_host] returns ([true]) or raises ([false]). *)
Definition check_bracketed_host (hostname : string) : bool :=
  if startswith "v" hostname then ipvfuture hostname
  else
    match Ipaddress.ip_address hostname with
    | Some Ipaddress.V6 => true
    | _ => false
    end.

(** The NFKC test of [_checknetloc] passes ([true]) or raises ([false]).
    It raises when the normal form of the net location holds one of
    [/?#@:] that the net location does not; no code point below 256 has
    such a normal form, so on the strings of this model it passes. *)
Definition nfkc_ok (netloc : string) : bool := true.

Section Checks.

(** [_check_bracketed_host] returns ([true]) or raises ([false]). *)
Variable bracketed_host_ok : string -> bool.
(** The NFKC test of [_checknetloc] passes ([true]) or raises ([false]). *)
Variable nfkc_ok : string -> bool.

Definition check_bracketed_netloc (netloc : string) : Res unit :=
  let hostname_and_port := (rpartition "@" netloc).2 in
  let '(before_bracket, have_open_br, bracketed) := partition "[" hostname_and_port in
  hostname ←
    (if have_open_br then
       if negb (is_empty before_bracket) then Raise ValueError
       else
         let '(hostname, _, port) := partition "]" bracketed in
         if negb (is_empty port) && negb (startswith ":" port) then Raise ValueError
         else Ok hostname
     else
       let '(hostname, _, _) := partition ":" hostname_and_port in Ok hostname);
  if bracketed_host_ok hostname then Ok () else Raise ValueError.

Definition checknetloc (netloc : string) : Res unit :=
  if is_empty netloc || isascii netloc then Ok ()
  else if nfkc_ok netloc then Ok () else Raise ValueError.

(** [urlsplit(url, scheme)] *)
Definition urlsplit (url scheme : string) : Res SplitResult :=
  let url := lstrip c0_control_or_space url in
  let scheme := strip c0_control_or_space scheme in
  let url := remove unsafe_byte url in
  let scheme := remove unsafe_byte scheme in
  let '(scheme, url) :=
    match partition ":" url with
    | (pre, true, post) =>
        match pre with
        | String a _ =>
            if is_alpha a && all scheme_char pre then (lower pre, post)
            else (scheme, url)
        | EmptyString => (scheme, url)
        end
    | (_, false, _) => (scheme, url)
    end in
  '(netloc, url) ←
    (if startswith "//" url then
       let '(netloc, rest) := splitnetloc (skip 2 url) in
       if (contains "[" netloc && negb (contains "]" netloc))
          || (contains "]" netloc && negb (contains "[" netloc))
       then Raise ValueError
       else if contains "[" netloc && contains "]" netloc
       then _ ← check_bracketed_netloc netloc; Ok (netloc, rest)
       else Ok (netloc, rest)
     else Ok (EmptyString, url));
  let '(url, fragment) :=
    match partition "#" url with
    | (u, true, f) => (u, f)
    | (_, false, _) => (url, EmptyString)
    end in
  let '(url, query) :=
    match partition "?" url with
    | (u, true, q) => (u, q)
    | (_, false, _) => (url, EmptyString)
    end in
  _ ← checknetloc netloc;
  Ok (mkSplit scheme netloc url query fragment).

(** [urlparse(url, scheme)] *)
Definition urlparse (url scheme : string) : Res ParseResult :=
  r ← urlsplit url scheme;
  let '(url, params) :=
    if in_list (s_scheme r) uses_params && contains ";" (s_path r)
    then splitparams (s_path r)
    else (s_path r, EmptyString) in
  Ok (mkParse (s_scheme r) (s_netloc r) url params (s_query r) (s_fragment r)).

End Checks.

(** [urlunsplit] *)
Definition urlunsplit (r : SplitResult) : string :=
  let url := s_path r in
  let url :=
    if negb (is_empty (s_netloc r))
       || (negb (is_empty (s_scheme r)) && in_list (s_scheme r) uses_netloc
           && negb (startswith "//" url))
    then
      let url := if negb (is_empty url) && negb (startswith "/" url)
                 then "/" +:+ url else url in
      "//" +:+ s_netloc r +:+ url
    else url in
  let url := if negb (is_empty (s_scheme r)) then s_scheme r +:+ ":" +:+ url else url in
  let url := if negb (is_empty (s_query r)) then url +:+ "?" +:+ s_query r else url in
  if negb (is_empty (s_fragment r)) then url +:+ "#" +:+ s_fragment r else url.

(** [urlunparse] *)
Definition urlunparse (p : ParseResult) : string :=
  let url := if negb (is_empty (params p)) then path p +:+ ";" +:+ params p else path p in
  urlunsplit (mkSplit (scheme p) (netloc p) url (query p) (fragment p)).

(** [segments[1:-1] = filter(None, segments[1:-1])] *)
Definition filter_inner (segments : list string) : list string :=
  match segments with
  | first :: (_ :: _) as rest =>
      first :: filter (fun x => negb (is_empty x)) (removelast rest)
        ++ [List.last rest EmptyString]
  | _ => segments
  end.

(** The loop of [urljoin] that removes dot segments. *)
Fixpoint resolve (segments resolved_path : list string) : list string :=
  match segments with
  | [] => resolved_path
  | seg :: rest =>
      if String.eqb seg ".." then resolve rest (removelast resolved_path)
      else if String.eqb seg "." then resolve rest resolved_path
      else resolve rest (resolved_path ++ [seg])
  end.

Section Join.

Variable bracketed_host_ok : string -> bool.
Variable nfkc_ok : string -> bool.

(** [urljoin(base, url)] *)
Definition urljoin (base url : string) : Res string :=
  if is_empty base then Ok url
  else if is_empty url then Ok base
  else
    b ← urlparse bracketed_host_ok nfkc_ok base EmptyString;
    u ← urlparse bracketed_host_ok nfkc_ok url (scheme b);
    if negb (String.eqb (scheme u) (scheme b)) || negb (in_list (scheme u) uses_relative)
    then Ok url
    else if in_list (scheme u) uses_netloc && negb (is_empty (netloc u))
    then Ok (urlunparse u)
    else
      let netloc' := if in_list (scheme u) uses_netloc then netloc b else netloc u in
      if is_empty (path u) && is_empty (params u) then
        let query' := if is_empty (query u) then query b else query u in
        Ok (urlunparse (mkParse (scheme u) netloc' (path b) (params b) query' (fragment u)))
      else
        let base_parts := split "/" (path b) in
        let base_parts :=
          if negb (is_empty (List.last base_parts EmptyString))
          then removelast base_parts else base_parts in
        let segments :=
          if startswith "/" (path u) then split "/" (path u)
          else filter_inner (base_parts ++ split "/" (path u)) in
        let resolved_path := resolve segments [] in
        let last_seg := List.last segments EmptyString in
        let resolved_path :=
          if String.eqb last_seg "." || String.eqb last_seg ".."
          then resolved_path ++ [EmptyString] else resolved_path in
        let joined := join "/" resolved_path in
        Ok (urlunparse (mkParse (scheme u) netloc'
                          (if is_empty joined then "/" else joined)
                          (params u) (query u) (fragment u))).

(** [urldefrag(url)] *)
Definition urldefrag (url : string) : Res (string * string) :=
  if contains "#" url then
    p ← urlparse bracketed_host_ok nfkc_ok url EmptyString;
    Ok (urlunparse (mkParse (scheme p) (netloc p) (path p) (params p) (query p) EmptyString),
        fragment p)
  else Ok (url, EmptyString).

End Join.

End Urllib.

(** ** [pathlib.Path(p).suffix] on a POSIX system *)

Module Pathlib.
Import PyStr.

(** [PurePath.name]: the last component that is neither empty nor a dot. *)
Definition name (p : string) : string :=
  List.last (filter (fun x => negb (is_empty x) && negb (String.eqb x "."))
               (split "/" p)) EmptyString.

(** [PurePath.suffix] *)
Definition suffix (p : string) : string :=
  match rpartition "." (name p) with
  | (String _ _, true, (String _ _) as ext) => "." +:+ ext
  | _ => EmptyString
  end.

End Pathlib.

(** ** [UrlFilterer] *)

Module UrlFilterer.

Record t : Type := mk {
  allowed_domains : option (gset string);
  allowed_schemes : option (gset string);
  allowed_filetypes : option (gset string)
}.

(** [allowed is not None and x not in allowed] *)
Definition rejects (allowed : option (gset string)) (x : string) : bool :=
  match allowed with
  | Some xs => bool_decide (x ∉ xs)
  | None => false
  end.

Section Filter.

(** The library calls of [filter_url]. *)
Variable urljoin : string -> string -> Res string.
Variable urldefrag : string -> Res (string * string).
Variable urlparse : string -> Res Urllib.ParseResult.
Variable path_suffix : string -> string.

(** [UrlFilterer.filter_url] *)
Definition filter_url (self : t) (base url : string) : Res (option string) :=
  url ← urljoin base url;
  d ← urldefrag url;
  let url := d.1 in
  parsed ← urlparse url;
  if rejects (allowed_schemes self) (Urllib.scheme parsed) then Ok None
  else if rejects (allowed_domains self) (Urllib.netloc parsed) then Ok None
  else
    let ext := path_suffix (Urllib.path parsed) in
    if rejects (allowed_filetypes self) ext then Ok None
    else Ok (Some url).

End Filter.

(** The filter on top of the models of [urllib.parse] and [pathlib]. *)
Definition py_filter_url (bracketed_host_ok nfkc_ok : string -> bool) :
    t -> string -> string -> Res (option string) :=
  filter_url (Urllib.urljoin bracketed_host_ok nfkc_ok)
             (Urllib.urldefrag bracketed_host_ok nfkc_ok)
             (fun url => Urllib.urlparse bracketed_host_ok nfkc_ok url EmptyString)
             Pathlib.suffix.

End UrlFilterer.

(** ** [asyncio.Queue()] with no size bound

    Only the two fields the program depends on: the deque of pending items
    and [_unfinished_tasks], the counter behind [task_done] and [join]. *)

Module Queue.

Record t : Type := mk { items : list string; unfinished_tasks : nat }.

Definition new : t := mk [] 0.

(** [put_nowait]: append on the right, count one more unfinished task. *)
Definition put_nowait (item : string) (q : t) : t :=
  mk (items q ++ [item]) (S (unfinished_tasks q)).

(** [get_nowait]: pop on the left; [None] when a [get] would suspend. *)
Definition get_nowait (q : t) : option (string * t) :=
  match items q with
  | [] => None
  | item :: rest => Some (item, mk rest (unfinished_tasks q))
  end.

(** [task_done]: [ValueError] when called more often than items were put. *)
Definition task_done (q : t) : Res t :=
  match unfinished_tasks q with
  | O => Raise ValueError
  | S n => Ok (mk (items q) n)
  end.

(** [join] returns as soon as no task is unfinished. *)
Definition drained (q : t) : bool := Nat.eqb (unfinished_tasks q) 0.

End Queue.

(** ** The [Crawler] object *)

Record Crawler : Type := mkCrawler {
  start_urls : gset string;
  todo : Queue.t;
  seen : gset string;
  done : gset string;
  num_workers : Z;
  limit : Z;
  total : Z
}.

Definition set_todo (q : Queue.t) (c : Crawler) : Crawler :=
  mkCrawler (start_urls c) q (seen c) (done c) (num_workers c) (limit c) (total c).
Definition set_seen (s : gset string) (c : Crawler) : Crawler :=
  mkCrawler (start_urls c) (todo c) s (done c) (num_workers c) (limit c) (total c).
Definition set_done (d : gset string) (c : Crawler) : Crawler :=
  mkCrawler (start_urls c) (todo c) (seen c) d (num_workers c) (limit c) (total c).
Definition set_total (n : Z) (c : Crawler) : Crawler :=
  mkCrawler (start_urls c) (todo c) (seen c) (done c) (num_workers c) (limit c) n.

(** [Crawler.__init__]: stores its arguments; nothing is validated, so the
    constructor has no raising path. *)
Definition Crawler_init (urls : list string) (workers lim : Z) : Res Crawler :=
  Ok (mkCrawler (list_to_set urls) Queue.new ∅ ∅ workers lim 0).

(** [Crawler.put_todo] *)
Definition put_todo (c : Crawler) (url : string) : Crawler :=
  if total c >=? limit c then c
  else set_todo (Queue.put_nowait url (todo c)) (set_total (total c + 1) c).

(** [Crawler.on_found_links].  A Python set is iterated in an order the
    program does not control; [iter] is the order of this call.  The
    coroutine has no [return]: its value is Python's [None]. *)
Definition on_found_links (iter : gset string -> list string)
    (urls : gset string) (c : Crawler) : option (gset string) * Crawler :=
  let new := urls ∖ seen c in
  let c1 := set_seen (seen c ∪ new) c in
  (None, foldl put_todo c1 (iter new)).

(** An iteration order enumerates each element of the set once. *)
Definition iter_ok (iter : gset string -> list string) : Prop :=
  forall X : gset string, iter X ≡ₚ elements X.

(** ** [UrlParser] and the per-address pipeline *)

(** What [client.get] hands back: [str(response.url)], the address after
    redirects, and [response.text]. *)
Record Response : Type := mkResponse { r_url : string; r_text : string }.

Section Pipeline.

(** The scope filter the crawler was built with.  [UrlParser] calls it on
    attribute values, and an attribute without a value comes as [None]. *)
Variable filter_url : string -> option string -> Res (option string).

(** [HTMLParser.feed]: the start tags of a document, each with its
    attribute list, in document order. *)
Variable html_starttags : string -> Res (list (string * list (string * option string))).

Definition handle_attr (base : string) (found_links : gset string)
    (a : string * option string) : Res (gset string) :=
  if bool_decide (a.1 ≠ "href") then Ok found_links
  else
    r ← filter_url base a.2;
    match r with
    | Some url => Ok (found_links ∪ {[url]})
    | None => Ok found_links
    end.

(** [UrlParser.handle_starttag] *)
Definition handle_starttag (base : string) (found_links : gset string)
    (t : string * list (string * option string)) : Res (gset string) :=
  if bool_decide (t.1 ≠ "a") then Ok found_links
  else for_each (handle_attr base) found_links t.2.

(** [Crawler.parse_links] *)
Definition parse_links (base text : string) : Res (gset string) :=
  tags ← html_starttags text;
  for_each (handle_starttag base) ∅ tags.

(** [Crawler.crawl], from the point where [client.get] has answered with
    [fetched].  Everything that can raise does so before the first
    assignment to the crawler. *)
Definition crawl (iter : gset string -> list string) (url : string)
    (fetched : Res Response) (c : Crawler) : Res Crawler :=
  response ← fetched;
  found_links ← parse_links (r_url response) (r_text response);
  let c1 := (on_found_links iter found_links c).2 in
  Ok (set_done (done c1 ∪ {[url]}) c1).

(** [Crawler.process_one] after [todo.get()] returned [url]: the [try]
    swallows every [Exception] of [crawl], the [finally] calls [task_done].
    The second component is the exception that leaves the coroutine. *)
Definition process_one (iter : gset string -> list string) (url : string)
    (fetched : Res Response) (c : Crawler) : Crawler * option exn :=
  let c1 := match crawl iter url fetched c with
            | Ok c' => c'
            | Raise _ => c
            end in
  match Queue.task_done (todo c1) with
  | Ok q => (set_todo q c1, None)
  | Raise e => (c1, Some e)
  end.

(** ** The running system *)

Inductive worker_state : Type :=
| Waiting                 (* suspended in, or about to call, [todo.get()] *)
| Crawling (url : string) (* between [todo.get()] and [task_done()] *)
| Cancelled               (* left the loop on [CancelledError] *)
| Failed (e : exn).       (* the task died with an exception *)

Inductive phase : Type := Seeding | Joining | Stopped.

#[global] Instance phase_eq_dec : EqDecision phase.
Proof. solve_decision. Defined.

Record System : Type := mkSystem {
  crawler : Crawler;
  workers : list worker_state;
  stage : phase
}.

Definition init_system (c : Crawler) : System := mkSystem c [] Seeding.

Inductive action : Type :=
| Seed (iter : gset string -> list string)
| Get (i : nat)
| Finish (i : nat) (fetched : Res Response) (iter : gset string -> list string)
| Join.

Definition action_ok (a : action) : Prop :=
  match a with
  | Seed iter => iter_ok iter
  | Finish _ _ iter => iter_ok iter
  | _ => True
  end.

(** The addresses a block appended to the frontier. *)
Definition enqueued (before after : Crawler) : list string :=
  drop (length (Queue.items (todo before))) (Queue.items (todo after)).

(** [worker.cancel()] once [join] has returned: a worker suspended in
    [get] leaves through [except CancelledError]; one inside [crawl] runs
    the [finally], where [task_done] raises on the drained queue. *)
Definition cancel (w : worker_state) : worker_state :=
  match w with
  | Waiting => Cancelled
  | Crawling _ => Failed ValueError
  | w => w
  end.

Definition phase_eqb (p q : phase) : bool :=
  match p, q with
  | Seeding, Seeding | Joining, Joining | Stopped, Stopped => true
  | _, _ => false
  end.

(** One block of the program; [None] when the block cannot run in [s]. *)
Definition do_action (a : action) (s : System) : option (System * list string) :=
  let c := crawler s in
  match a with
  | Seed iter =>
      (* [run] up to [await self.todo.join()] *)
      if phase_eqb (stage s) Seeding then
        let c' := (on_found_links iter (start_urls c) c).2 in
        Some (mkSystem c' (replicate (Z.to_nat (num_workers c)) Waiting) Joining,
              enqueued c c')
      else None
  | Get i =>
      if phase_eqb (stage s) Joining then
        match workers s !! i, Queue.get_nowait (todo c) with
        | Some Waiting, Some (url, q) =>
            Some (mkSystem (set_todo q c) (<[i := Crawling url]> (workers s)) Joining, [])
        | _, _ => None
        end
      else None
  | Finish i fetched iter =>
      if phase_eqb (stage s) Joining then
        match workers s !! i with
        | Some (Crawling url) =>
            let '(c', e) := process_one iter url fetched c in
            let w := match e with None => Waiting | Some e => Failed e end in
            Some (mkSystem c' (<[i := w]> (workers s)) Joining, enqueued c c')
        | _ => None
        end
      else None
  | Join =>
      (* [todo.join()] returns, then every worker is cancelled *)
      if phase_eqb (stage s) Joining && Queue.drained (todo c) then
        Some (mkSystem c (cancel <$> workers s) Stopped, [])
      else None
  end.

(** A schedule is the sequence of blocks the event loop ran; the result
    carries every address enqueued along the way, in order. *)
Fixpoint execute (sched : list action) (s : System) : option (System * list string) :=
  match sched with
  | [] => Some (s, [])
  | a :: rest =>
      match do_action a s with
      | Some (s1, l1) =>
          match execute rest s1 with
          | Some (s2, l2) => Some (s2, l1 ++ l2)
          | None => None
          end
      | None => None
      end
  end.

End Pipeline.

(** ** A small site to run the model on

    [main]'s filter configuration, on the host [localhost].  Pages are
    given by their start tags, since HTML tokenising is the parser
    library's business. *)

Module Demo.

(** The [UrlFilterer] that [main] builds. *)
Definition filterer : UrlFilterer.t :=
  UrlFilterer.mk (Some {["192.168.254.109:2368"; "localhost"]})
                 (Some {["http"; "https"]})
                 (Some {[".html"; ".php"; ""]}).

(** [filterer.filter_url] as [UrlParser] calls it.  [urljoin] answers a
    missing attribute value like an empty one when the base is not empty,
    and every base used here is an address. *)
Definition filter_url (base : string) (v : option string) : Res (option string) :=
  UrlFilterer.py_filter_url Urllib.check_bracketed_host Urllib.nfkc_ok
    filterer base (default EmptyString v).

Definition link (href : string) : string * list (string * option string) :=
  ("a", [("href", Some href)]).

(** index -> a.html -> b.html -> index, and a mail link on the index; a
    page that links to a malformed address, and one the parser gives up on. *)
Definition html_starttags (text : string)
    : Res (list (string * list (string * option string))) :=
  if String.eqb text "index" then
    Ok [link "a.html"; ("img", [("src", Some "logo.png")]); link "mailto:me@localhost"]
  else if String.eqb text "page a" then Ok [link "b.html#top"; link "/c.html"]
  else if String.eqb text "page b" then Ok [link "/"; link "a.html"]
  else if String.eqb text "moved" then Ok [link "page.html"]
  else if String.eqb text "bad link" then Ok [link "x.html"; link "http://["]
  else if String.eqb text "broken" then Raise ValueError
  else Ok [].

Definition seeds : list string := ["http://localhost/"].

Definition fresh (workers lim : Z) : Crawler :=
  mkCrawler (list_to_set seeds) Queue.new ∅ ∅ workers lim 0.

Definition order : gset string -> list string := elements.

(** One worker, budget three: the index, then page a, whose two links
    compete for the last slot; the worker has just taken the third address. *)
Definition prefix : list action :=
  [ Seed order;
    Get 0%nat;
    Finish 0%nat (Ok (mkResponse "http://localhost/" "index")) order;
    Get 0%nat;
    Finish 0%nat (Ok (mkResponse "http://localhost/a.html" "page a")) order;
    Get 0%nat ].

(** The third fetch fails, then the queue is drained. *)
Definition schedule : list action :=
  prefix ++ [ Finish 0%nat (Raise TransportError) order; Join ].

End Demo.

(** ** Notions used to state the properties *)

(** Admissions the budget still allows. *)
Definition budget (c : Crawler) : nat := Z.to_nat (limit c - total c).

Definition crawling_url (w : worker_state) : option string :=
  match w with Crawling u => Some u | _ => None end.

Definition crawling_urls (ws : list worker_state) : list string :=
  omap crawling_url ws.

Definition live (w : worker_state) : Prop :=
  match w with Waiting | Crawling _ => True | _ => False end.

(** Outstanding work: addresses being crawled and addresses queued. *)
Definition active (s : System) : list string :=
  crawling_urls (workers s) ++ Queue.items (todo (crawler s)).

Definition pristine (c : Crawler) : Prop :=
  todo c = Queue.new /\ seen c = ∅ /\ done c = ∅ /\ total c = 0.

Definition stage_inv (c0 : Crawler) (s : System) : Prop :=
  match stage s with
  | Seeding => s = init_system c0
  | Joining =>
      Forall live (workers s) /\
      length (workers s) = Z.to_nat (num_workers c0)
  | Stopped =>
      Forall (eq Cancelled) (workers s) /\
      length (workers s) = Z.to_nat (num_workers c0) /\
      Queue.unfinished_tasks (todo (crawler s)) = 0%nat
  end.

(** What holds of every state a run from [c0] reaches, [h] being the
    addresses enqueued so far. *)
Record invariant (c0 : Crawler) (s : System) (h : list string) : Prop := mkInv {
  inv_hist_nodup : NoDup h;
  inv_hist_seen : forall u, u ∈ h -> u ∈ seen (crawler s);
  inv_active_nodup : NoDup (active s);
  inv_active_hist : forall u, u ∈ active s -> u ∈ h;
  inv_done : forall u, u ∈ done (crawler s) -> (u ∈ h) /\ (u ∉ active s);
  inv_unfinished : Queue.unfinished_tasks (todo (crawler s)) = length (active s);
  inv_total : total (crawler s) = Z.of_nat (length h);
  inv_budget : total (crawler s) <= Z.max 0 (limit (crawler s));
  inv_limit : limit (crawler s) = limit c0;
  inv_workers : num_workers (crawler s) = num_workers c0;
  inv_stage : stage_inv c0 s
}.

(** One batch admission, as seen from outside. *)
Record admits (c : Crawler) (l : list string) (c' : Crawler) : Prop := mkAdmits {
  adm_items : Queue.items (todo c') = Queue.items (todo c) ++ l;
  adm_unfinished :
    Queue.unfinished_tasks (todo c') = (Queue.unfinished_tasks (todo c) + length l)%nat;
  adm_total : total c' = total c + Z.of_nat (length l);
  adm_seen : seen c ⊆ seen c';
  adm_fresh : forall u, u ∈ l -> (u ∉ seen c) /\ (u ∈ seen c');
  adm_nodup : NoDup l;
  adm_budget : (length l <= budget c)%nat;
  adm_limit : limit c' = limit c;
  adm_workers : num_workers c' = num_workers c;
  adm_done : done c' = done c
}.

(** One block of the program, as seen from outside: [l] was enqueued and
    the addresses [gone] left the outstanding work. *)
Record transition (s : System) (l gone : list string) (s' : System) : Prop := mkTrans {
  tr_active : active s' ++ gone ≡ₚ active s ++ l;
  tr_gone : forall u, u ∈ gone -> u ∈ active s;
  tr_done : forall u, u ∈ done (crawler s') -> (u ∈ done (crawler s)) \/ (u ∈ gone);
  tr_done_mono : done (crawler s) ⊆ done (crawler s');
  tr_seen : seen (crawler s) ⊆ seen (crawler s');
  tr_fresh : forall u, u ∈ l -> (u ∉ seen (crawler s)) /\ (u ∈ seen (crawler s'));
  tr_nodup : NoDup l;
  tr_total : total (crawler s') = total (crawler s) + Z.of_nat (length l);
  tr_budget : (length l <= budget (crawler s))%nat;
  tr_unfinished :
    (Queue.unfinished_tasks (todo (crawler s')) + length gone
     = Queue.unfinished_tasks (todo (crawler s)) + length l)%nat;
  tr_limit : limit (crawler s') = limit (crawler s);
  tr_workers : num_workers (crawler s') = num_workers (crawler s);
  tr_stage : stage s <> Stopped
}.

Definition stage_weight (p : phase) : nat :=
  match p with Seeding => 2 | Joining => 1 | Stopped => 0 end.

(** A bound on the blocks still to run. *)
Definition measure (s : System) : nat :=
  stage_weight (stage s) + 2 * length (Queue.items (todo (crawler s)))
  + length (crawling_urls (workers s)) + 2 * budget (crawler s).

(** A block that keeps the invariant and uses up some of the measure. *)
Definition step_ok (c0 : Crawler) (s : System) (l : list string) (s' : System) : Prop :=
  exists gone, transition s l gone s' /\ stage_inv c0 s' /\ (measure s' < measure s)%nat.

(** An address that was recorded and is neither outstanding nor done:
    dropped at the budget, or failed. *)
Definition retired (u : string) (s : System) : Prop :=
  (u ∈ seen (crawler s)) /\ (u ∉ active s) /\ (u ∉ done (crawler s)).

(** The character [c] does not occur in [s]. *)
Definition lacks (c : ascii) (s : string) : Prop := PyStr.contains c s = false.

(** The allow-lists turn a parsed address down. *)
Definition out_of_scope (self : UrlFilterer.t) (ext : string)
    (parsed : Urllib.ParseResult) : Prop :=
  (exists xs, UrlFilterer.allowed_schemes self = Some xs /\ (Urllib.scheme parsed ∉ xs)) \/
  (exists xs, UrlFilterer.allowed_domains self = Some xs /\ (Urllib.netloc parsed ∉ xs)) \/
  (exists xs, UrlFilterer.allowed_filetypes self = Some xs /\ (ext ∉ xs)).

(** An allow-list [b] that lets through at least what [a] lets through. *)
Definition wider (a b : option (gset string)) : Prop :=
  match b with
  | None => True
  | Some ys => match a with Some xs => xs ⊆ ys | None => False end
  end.

(** The [href] values a document offers: those of its [a] tags, in order. *)
Definition hrefs (tags : list (string * list (string * option string)))
    : list (option string) :=
  t ← tags;
  if bool_decide (t.1 = "a")
  then a ← t.2; if bool_decide (a.1 = "href") then [a.2] else []
  else [].

(** Where a known address can come from: the seeds, or the filter. *)
Definition from_filter (filter_url : string -> option string -> Res (option string))
    (c0 : Crawler) (u : string) : Prop :=
  (u ∈ start_urls c0) \/ (exists base v, filter_url base v = Ok (Some u)).

(** The pipeline that block [a] completes in [s], if any, does not raise. *)
Definition pipeline_ok
    (filter_url : string -> option string -> Res (option string))
    (html_starttags : string -> Res (list (string * list (string * option string))))
    (a : action) (s : System) : Prop :=
  match a with
  | Finish i fetched iter =>
      forall url, workers s !! i = Some (Crawling url) ->
        is_Ok (crawl filter_url html_starttags iter url fetched (crawler s)) = true
  | _ => True
  end.

(** No pipeline raises along the schedule. *)
Fixpoint unfailing
    (filter_url : string -> option string -> Res (option string))
    (html_starttags : string -> Res (list (string * list (string * option string))))
    (sched : list action) (s : System) : Prop :=
  match sched with
  | [] => True
  | a :: rest =>
      pipeline_ok filter_url html_starttags a s /\
      match do_action filter_url html_starttags a s with
      | Some (s1, _) => unfailing filter_url html_starttags rest s1
      | None => True
      end
  end.

(** * Properties *)

(** ** Batch admission *)

Lemma put_todo_foldl (l : list string) (c : Crawler) :
  foldl put_todo c l =
  let adm := take (budget c) l in
  mkCrawler (start_urls c)
    (Queue.mk (Queue.items (todo c) ++ adm)
              (Queue.unfinished_tasks (todo c) + length adm)%nat)
    (seen c) (done c) (num_workers c) (limit c)
    (total c + Z.of_nat (length adm)).
Proof.
  revert c. induction l as [|x l IH]; intros c; cbn [foldl].
  - rewrite take_nil. cbn. rewrite app_nil_r, Nat.add_0_r, Z.add_0_r.
    by destruct c as [? [] ? ? ? ? ?].
  - rewrite IH. unfold put_todo, budget.
    destruct (Z.geb_spec (total c) (limit c)) as [Hge|Hlt].
    + replace (Z.to_nat (limit c - total c)) with 0%nat by lia.
      by rewrite !take_0.
    + cbn.
      replace (Z.to_nat (limit c - total c))
        with (S (Z.to_nat (limit c - (total c + 1)))) by lia.
      cbn. rewrite <- app_assoc. cbn. f_equal; [f_equal; lia | lia].
Qed.

Lemma on_found_links_eq iter urls c :
  (on_found_links iter urls c).2 =
  let adm := take (budget c) (iter (urls ∖ seen c)) in
  mkCrawler (start_urls c)
    (Queue.mk (Queue.items (todo c) ++ adm)
              (Queue.unfinished_tasks (todo c) + length adm)%nat)
    (seen c ∪ urls) (done c) (num_workers c) (limit c)
    (total c + Z.of_nat (length adm)).
Proof.
  unfold on_found_links. cbn [snd]. rewrite put_todo_foldl. cbn.
  f_equal. apply set_eq. intros x. rewrite !elem_of_union, elem_of_difference.
  destruct (decide (x ∈ seen c)); tauto.
Qed.

Lemma iter_ok_elem iter X u : iter_ok iter -> u ∈ iter X <-> u ∈ X.
Proof. intros H. rewrite (H X). apply elem_of_elements. Qed.

Lemma iter_ok_NoDup iter X : iter_ok iter -> NoDup (iter X).
Proof. intros H. rewrite (H X). apply NoDup_elements. Qed.

Lemma iter_ok_elements : iter_ok elements.
Proof. intros X. reflexivity. Qed.

Lemma elem_of_take_elem {A} (x : A) n l : x ∈ take n l -> x ∈ l.
Proof. intros (i & Hi & _)%elem_of_take. by eapply list_elem_of_lookup_2. Qed.

Lemma admits_refl c : admits c [] c.
Proof.
  split; cbn; try done; try lia.
  - by rewrite app_nil_r.
  - intros u Hu. by apply elem_of_nil in Hu.
  - constructor.
Qed.

Lemma admits_on_found_links iter urls c :
  iter_ok iter ->
  admits c (take (budget c) (iter (urls ∖ seen c))) (on_found_links iter urls c).2.
Proof.
  intros Hit. rewrite on_found_links_eq. cbn zeta.
  set (l := take _ _).
  assert (Hsub : forall u, u ∈ l -> (u ∈ urls) /\ (u ∉ seen c)).
  { intros u Hu%elem_of_take_elem. apply (iter_ok_elem iter) in Hu; [|done].
    by apply elem_of_difference in Hu. }
  split; cbn; try done.
  - intros u Hu. apply elem_of_union. by left.
  - intros u Hu. destruct (Hsub u Hu). split; [done|]. apply elem_of_union. by right.
  - unfold l. eapply sublist_NoDup; [by apply iter_ok_NoDup | apply sublist_take].
  - unfold l. rewrite length_take. lia.
Qed.

Lemma admits_enqueued c l c' : admits c l c' -> enqueued c c' = l.
Proof.
  intros H. unfold enqueued. rewrite (adm_items _ _ _ H). by rewrite drop_app_length.
Qed.

Lemma budget_admits c l c' : admits c l c' -> (budget c' + length l = budget c)%nat.
Proof.
  intros H. pose proof (adm_budget _ _ _ H). unfold budget in *.
  rewrite (adm_total _ _ _ H), (adm_limit _ _ _ H). lia.
Qed.

(** ** Workers *)

Lemma crawling_urls_replicate n : crawling_urls (replicate n Waiting) = [].
Proof. induction n; cbn; auto. Qed.

Lemma crawling_urls_middle l1 w l2 :
  crawling_urls (l1 ++ w :: l2)
  ≡ₚ option_list (crawling_url w) ++ crawling_urls (l1 ++ l2).
Proof.
  unfold crawling_urls. rewrite !omap_app. simpl.
  destruct (crawling_url w); simpl; [|done].
  by rewrite <- Permutation_middle.
Qed.

Lemma crawling_urls_insert ws i w w' :
  ws !! i = Some w ->
  crawling_urls (<[i := w']> ws) ++ option_list (crawling_url w)
  ≡ₚ option_list (crawling_url w') ++ crawling_urls ws.
Proof.
  intros Hi.
  rewrite insert_take_drop by (by eapply lookup_lt_Some).
  rewrite crawling_urls_middle.
  rewrite <- (take_drop_middle ws i w Hi) at 3.
  rewrite (crawling_urls_middle _ w).
  rewrite <- !app_assoc. f_equiv. apply Permutation_app_comm.
Qed.

Lemma crawling_urls_lookup ws i url :
  ws !! i = Some (Crawling url) -> url ∈ crawling_urls ws.
Proof.
  intros Hi. apply list_elem_of_omap. exists (Crawling url).
  split; [by eapply list_elem_of_lookup_2 | done].
Qed.

Lemma crawling_urls_elem ws url :
  url ∈ crawling_urls ws -> exists i, ws !! i = Some (Crawling url).
Proof.
  intros (w & Hw & Hc)%list_elem_of_omap.
  apply list_elem_of_lookup in Hw as [i Hi]. exists i.
  destruct w; cbn in Hc; try done. by injection Hc as ->.
Qed.

Lemma crawling_urls_cancel ws : crawling_urls (cancel <$> ws) = [].
Proof. induction ws as [|[] ws IH]; cbn; auto. Qed.

Lemma cancel_idle ws :
  Forall live ws -> crawling_urls ws = [] -> Forall (eq Cancelled) (cancel <$> ws).
Proof.
  induction 1 as [|w ws Hw _ IH]; cbn; [constructor|].
  destruct w; cbn in *; try done. intros Hcu. constructor; auto.
Qed.

Lemma phase_eqb_eq p q : phase_eqb p q = true <-> p = q.
Proof. destruct p, q; cbn; split; congruence. Qed.

(** ** One block preserves the invariant *)

Lemma invariant_step c0 s h s' l gone :
  invariant c0 s h -> transition s l gone s' -> stage_inv c0 s' ->
  invariant c0 s' (h ++ l).
Proof.
  intros [Hh Hhs Han Hah Hd Hu Ht Hb Hl Hw _]
         [Hperm _ Hdone _ Hseen Hfresh Hnd Htot Hlen Hunf Hlim Hnw _] Hst.
  assert (Hdisj : forall x, x ∈ h -> x ∉ l).
  { intros x Hx Hxl. apply Hfresh in Hxl as [Hn _]. by apply Hn, Hhs. }
  assert (Hnd2 : NoDup (active s' ++ gone)).
  { rewrite Hperm. apply NoDup_app. split_and!; [done| |done].
    intros x Hx. by apply Hdisj, Hah. }
  apply NoDup_app in Hnd2 as (Hnd2 & Hgone & _).
  assert (Hin : forall u, u ∈ active s' ++ gone -> u ∈ h ++ l).
  { intros u. rewrite Hperm, !elem_of_app. intros [?|?]; auto. }
  split.
  - apply NoDup_app. by split_and!.
  - intros u [Hu1|Hu1]%elem_of_app; [by apply Hseen, Hhs | by apply Hfresh].
  - done.
  - intros u Hu1. apply Hin, elem_of_app. by left.
  - intros u [Hu1|Hu1]%Hdone.
    + destruct (Hd u Hu1) as [Huh Hua]. split; [apply elem_of_app; by left|].
      intros Hc. assert (Hc' : u ∈ active s ++ l).
      { rewrite <- Hperm. apply elem_of_app. by left. }
      apply elem_of_app in Hc' as [?|?]; [done | by eapply Hdisj].
    + split; [apply Hin, elem_of_app; by right|].
      intros Hc. by eapply Hgone.
  - apply Permutation_length in Hperm. rewrite !length_app in Hperm. lia.
  - rewrite length_app. lia.
  - unfold budget in Hlen. lia.
  - congruence.
  - congruence.
  - done.
Qed.

(** A retired address stays retired. *)
Lemma retired_step u s l gone s' :
  transition s l gone s' -> retired u s -> retired u s' /\ u ∉ l.
Proof.
  intros [Hperm Hgone Hdone _ Hseen Hfresh _ _ _ _ _ _ _] (Hs & Ha & Hd).
  assert (Hl : u ∉ l) by (intros Hl; by apply Hfresh in Hl as [? _]).
  split; [|done]. split_and!.
  - by apply Hseen.
  - intros Hc. assert (Hc' : u ∈ active s ++ l).
    { rewrite <- Hperm. apply elem_of_app. by left. }
    apply elem_of_app in Hc' as [?|?]; done.
  - intros [?|Hg%Hgone]%Hdone; done.
Qed.

Section Engine.

Variable filter_url : string -> option string -> Res (option string).
Variable html_starttags : string -> Res (list (string * list (string * option string))).

Local Abbreviation parse_links' := (parse_links filter_url html_starttags).
Local Abbreviation crawl' := (crawl filter_url html_starttags).
Local Abbreviation process_one' := (process_one filter_url html_starttags).
Local Abbreviation do_action' := (do_action filter_url html_starttags).
Local Abbreviation execute' := (execute filter_url html_starttags).

(** What [crawl] leaves behind: nothing at all after an exception, else
    one batch admission followed by [done.add(url)]. *)
Lemma crawl_cases iter url fetched c :
  (exists e, crawl' iter url fetched c = Raise e) \/
  (exists response found,
      fetched = Ok response /\
      parse_links' (r_url response) (r_text response) = Ok found /\
      crawl' iter url fetched c =
        Ok (set_done (done c ∪ {[url]}) (on_found_links iter found c).2)).
Proof.
  unfold crawl. destruct fetched as [response|e]; cbn; [|eauto].
  destruct (parse_links _ _ _ _) as [found|e] eqn:Hp; cbn; [|eauto].
  right. exists response, found. split_and!; [done..|].
  by rewrite put_todo_foldl.
Qed.

Lemma process_one_admits iter url fetched c :
  iter_ok iter ->
  exists l c1,
    admits c l c1 /\
    (is_Ok (crawl' iter url fetched c) = false -> l = [] /\ c1 = c) /\
    let c2 := set_done (if is_Ok (crawl' iter url fetched c)
                        then done c ∪ {[url]} else done c) c1 in
    process_one' iter url fetched c =
      match Queue.task_done (todo c2) with
      | Ok q => (set_todo q c2, None)
      | Raise e => (c2, Some e)
      end.
Proof.
  intros Hit. unfold process_one.
  destruct (crawl_cases iter url fetched c) as [[e He]|(resp & found & _ & _ & He)];
    rewrite He; cbn.
  - exists [], c. split_and!; [apply admits_refl|done|by destruct c].
  - exists (take (budget c) (iter (found ∖ seen c))), (on_found_links iter found c).2.
    split_and!; [by apply admits_on_found_links|done|reflexivity].
Qed.

Lemma seed_step c0 iter s h s' l :
  invariant c0 s h -> iter_ok iter ->
  do_action' (Seed iter) s = Some (s', l) -> step_ok c0 s l s'.
Proof.
  intros Hinv Hit Hdo. cbv beta iota zeta delta [do_action] in Hdo.
  destruct (phase_eqb (stage s) Seeding) eqn:Hst; [|done].
  apply phase_eqb_eq in Hst.
  pose proof (inv_stage _ _ _ Hinv) as Hsi. unfold stage_inv in Hsi. rewrite Hst in Hsi.
  pose proof (admits_on_found_links iter (start_urls (crawler s)) (crawler s) Hit) as Ha.
  rewrite (admits_enqueued _ _ _ Ha) in Hdo.
  remember (take _ _) as l0 eqn:Hl0. remember (on_found_links _ _ _).2 as c' eqn:Hc'.
  clear Hl0 Hc'. injection Hdo as <- <-.
  assert (Hws : workers s = []) by (by rewrite Hsi).
  pose proof (budget_admits _ _ _ Ha) as Hb.
  exists []. split_and!.
  - split; try apply Ha.
    + unfold active. cbn -[crawling_urls].
      rewrite crawling_urls_replicate, Hws, app_nil_r. cbn.
      by rewrite (adm_items _ _ _ Ha).
    + intros u Hu. by apply elem_of_nil in Hu.
    + intros u. cbn. rewrite (adm_done _ _ _ Ha). auto.
    + cbn. by rewrite (adm_done _ _ _ Ha).
    + cbn. rewrite (adm_unfinished _ _ _ Ha). lia.
    + by rewrite Hst.
  - unfold stage_inv. cbn. split.
    + by apply Forall_replicate.
    + rewrite length_replicate. by rewrite (inv_workers _ _ _ Hinv).
  - unfold measure. cbn -[crawling_urls]. rewrite Hst, Hws, crawling_urls_replicate. cbn.
    rewrite (adm_items _ _ _ Ha), length_app. lia.
Qed.

Lemma get_step c0 i s h s' l :
  invariant c0 s h ->
  do_action' (Get i) s = Some (s', l) -> step_ok c0 s l s'.
Proof.
  intros Hinv Hdo. cbv beta iota zeta delta [do_action] in Hdo.
  destruct (phase_eqb (stage s) Joining) eqn:Hst; [|done].
  apply phase_eqb_eq in Hst.
  pose proof (inv_stage _ _ _ Hinv) as Hsi. unfold stage_inv in Hsi. rewrite Hst in Hsi.
  destruct Hsi as [Hlive Hlen].
  destruct (workers s !! i) as [[]|] eqn:Hi; try done.
  unfold Queue.get_nowait in Hdo.
  destruct (Queue.items (todo (crawler s))) as [|url rest] eqn:Hitems; [done|].
  injection Hdo as <- <-.
  pose proof (crawling_urls_insert _ _ _ (Crawling url) Hi) as Hp.
  cbn in Hp. rewrite app_nil_r in Hp.
  exists []. split_and!.
  - split; try done.
    + unfold active. cbn -[crawling_urls]. rewrite Hitems, !app_nil_r, Hp. cbn.
      apply Permutation_middle.
    + intros u Hu. by apply elem_of_nil in Hu.
    + intros u Hu. by left.
    + intros u Hu. by apply elem_of_nil in Hu.
    + constructor.
    + cbn. lia.
    + cbn. lia.
    + by rewrite Hst.
  - unfold stage_inv. cbn. split.
    + by apply Forall_insert.
    + by rewrite length_insert.
  - unfold measure, budget. cbn -[crawling_urls]. rewrite Hst, Hitems.
    apply Permutation_length in Hp. rewrite Hp. cbn -[crawling_urls]. lia.
Qed.

Lemma join_step c0 s h s' l :
  invariant c0 s h ->
  do_action' Join s = Some (s', l) -> step_ok c0 s l s'.
Proof.
  intros Hinv Hdo. cbv beta iota zeta delta [do_action] in Hdo.
  destruct (phase_eqb (stage s) Joining) eqn:Hst; [|done].
  apply phase_eqb_eq in Hst.
  pose proof (inv_stage _ _ _ Hinv) as Hsi. unfold stage_inv in Hsi. rewrite Hst in Hsi.
  destruct Hsi as [Hlive Hlen].
  destruct (Queue.drained (todo (crawler s))) eqn:Hdr; [|done].
  cbn in Hdo. injection Hdo as <- <-.
  unfold Queue.drained in Hdr. apply Nat.eqb_eq in Hdr.
  pose proof (inv_unfinished _ _ _ Hinv) as Hu. rewrite Hdr in Hu.
  symmetry in Hu. apply length_zero_iff_nil in Hu.
  unfold active in Hu. apply app_eq_nil in Hu as [Hcu Hit].
  exists []. split_and!.
  - split; try done.
    + unfold active. cbn -[crawling_urls]. by rewrite crawling_urls_cancel, Hcu.
    + intros u Hu. by apply elem_of_nil in Hu.
    + intros u Hu. by left.
    + intros u Hu. by apply elem_of_nil in Hu.
    + constructor.
    + cbn. lia.
    + cbn. lia.
    + by rewrite Hst.
  - unfold stage_inv. cbn. split_and!.
    + by apply cancel_idle.
    + by rewrite length_fmap.
    + done.
  - unfold measure. cbn -[crawling_urls].
    rewrite Hst, crawling_urls_cancel, Hcu. cbn. lia.
Qed.

(** The shape of the state after a worker finished an address. *)
Lemma finish_shape c0 i fetched iter s h s' l :
  invariant c0 s h -> iter_ok iter ->
  do_action' (Finish i fetched iter) s = Some (s', l) ->
  exists url c1,
    workers s !! i = Some (Crawling url) /\ stage s = Joining /\
    admits (crawler s) l c1 /\
    (is_Ok (crawl' iter url fetched (crawler s)) = false -> l = [] /\ c1 = crawler s) /\
    s' = mkSystem
           (set_todo (Queue.mk (Queue.items (todo c1))
                               (Nat.pred (Queue.unfinished_tasks (todo c1))))
              (set_done (if is_Ok (crawl' iter url fetched (crawler s))
                         then done (crawler s) ∪ {[url]} else done (crawler s)) c1))
           (<[i := Waiting]> (workers s)) Joining.
Proof.
  intros Hinv Hit Hdo. cbv beta iota zeta delta [do_action] in Hdo.
  destruct (phase_eqb (stage s) Joining) eqn:Hst; [|done].
  apply phase_eqb_eq in Hst.
  destruct (workers s !! i) as [[|url| |]|] eqn:Hi; try done.
  destruct (process_one_admits iter url fetched (crawler s) Hit)
    as (l1 & c1 & Ha & Hraise & Hpo).
  cbv zeta in Hpo. rewrite Hpo in Hdo. clear Hpo.
  assert (Hpos : (0 < Queue.unfinished_tasks (todo c1))%nat).
  { rewrite (adm_unfinished _ _ _ Ha), (inv_unfinished _ _ _ Hinv).
    unfold active. rewrite length_app.
    apply crawling_urls_lookup in Hi.
    destruct (crawling_urls (workers s)); [by apply elem_of_nil in Hi | cbn; lia]. }
  unfold Queue.task_done in Hdo. cbn [todo set_done] in Hdo.
  destruct (Queue.unfinished_tasks (todo c1)) as [|n] eqn:Hn; [lia|].
  injection Hdo as <- <-.
  exists url, c1.
  assert (Hl : enqueued (crawler s)
     (set_todo {| Queue.items := Queue.items (todo c1); Queue.unfinished_tasks := n |}
        (set_done (if is_Ok (crawl' iter url fetched (crawler s))
                   then done (crawler s) ∪ {[url]} else done (crawler s)) c1)) = l1).
  { unfold enqueued. cbn. rewrite (adm_items _ _ _ Ha). by rewrite drop_app_length. }
  rewrite Hl. split_and!; try done. by rewrite Hn.
Qed.

Lemma finish_transition c0 i fetched iter s h s' l :
  invariant c0 s h -> iter_ok iter ->
  do_action' (Finish i fetched iter) s = Some (s', l) ->
  exists url,
    workers s !! i = Some (Crawling url) /\
    transition s l [url] s' /\ stage_inv c0 s' /\ (measure s' < measure s)%nat.
Proof.
  intros Hinv Hit Hdo.
  destruct (finish_shape _ _ _ _ _ _ _ _ Hinv Hit Hdo)
    as (url & c1 & Hi & Hst & Ha & _ & ->).
  pose proof (inv_stage _ _ _ Hinv) as Hsi. unfold stage_inv in Hsi. rewrite Hst in Hsi.
  destruct Hsi as [Hlive Hlen].
  pose proof (crawling_urls_insert _ _ _ Waiting Hi) as Hp. cbn in Hp.
  assert (Hpos : (0 < Queue.unfinished_tasks (todo c1))%nat).
  { rewrite (adm_unfinished _ _ _ Ha), (inv_unfinished _ _ _ Hinv).
    unfold active. rewrite length_app.
    apply crawling_urls_lookup in Hi.
    destruct (crawling_urls (workers s)); [by apply elem_of_nil in Hi | cbn; lia]. }
  pose proof (budget_admits _ _ _ Ha) as Hb.
  exists url. split_and!; [done|..].
  - split; try apply Ha.
    + unfold active. cbn -[crawling_urls]. rewrite (adm_items _ _ _ Ha).
      rewrite <- Hp. rewrite <- !app_assoc. f_equiv.
      rewrite (Permutation_app_comm [url]). by rewrite <- app_assoc.
    + intros u ->%list_elem_of_singleton. unfold active. apply elem_of_app. left.
      by eapply crawling_urls_lookup.
    + cbn. intros u. destruct (is_Ok _); [|by left].
      rewrite elem_of_union, elem_of_singleton, list_elem_of_singleton. done.
    + cbn. destruct (is_Ok _); [|done]. intros u Hu. apply elem_of_union. by left.
    + cbn. rewrite <- (adm_unfinished _ _ _ Ha). lia.
    + by rewrite Hst.
  - unfold stage_inv. cbn. split.
    + by apply Forall_insert.
    + by rewrite length_insert.
  - unfold measure, budget in *. cbn -[crawling_urls]. rewrite Hst.
    apply Permutation_length in Hp. rewrite length_app in Hp. cbn in Hp.
    rewrite (adm_items _ _ _ Ha), length_app.
    rewrite (adm_total _ _ _ Ha), (adm_limit _ _ _ Ha) in *.
    unfold stage_weight. lia.
Qed.

Lemma finish_step c0 i fetched iter s h s' l :
  invariant c0 s h -> iter_ok iter ->
  do_action' (Finish i fetched iter) s = Some (s', l) -> step_ok c0 s l s'.
Proof.
  intros Hinv Hit Hdo.
  destruct (finish_transition _ _ _ _ _ _ _ _ Hinv Hit Hdo) as (url & _ & H).
  by exists [url].
Qed.

Lemma do_action_step c0 a s h s' l :
  invariant c0 s h -> action_ok a ->
  do_action' a s = Some (s', l) -> step_ok c0 s l s'.
Proof.
  destruct a; intros Hinv Hok Hdo.
  - by eapply seed_step.
  - by eapply get_step.
  - by eapply finish_step.
  - by eapply join_step.
Qed.

(** ** Runs *)

Lemma init_invariant urls n lim c0 :
  Crawler_init urls n lim = Ok c0 -> invariant c0 (init_system c0) [].
Proof.
  intros [= <-]. split; cbn; try done; try lia.
  - constructor.
  - intros u Hu. by apply elem_of_nil in Hu.
  - constructor.
Qed.

Lemma init_fields urls n lim c0 :
  Crawler_init urls n lim = Ok c0 ->
  limit c0 = lim /\ num_workers c0 = n /\ start_urls c0 = list_to_set urls.
Proof. by intros [= <-]. Qed.

Lemma run_invariant c0 sched : forall s h s' l,
  invariant c0 s h -> Forall action_ok sched ->
  execute' sched s = Some (s', l) ->
  invariant c0 s' (h ++ l) /\
  (measure s' + length sched <= measure s)%nat /\
  seen (crawler s) ⊆ seen (crawler s') /\
  done (crawler s) ⊆ done (crawler s') /\
  total (crawler s') = total (crawler s) + Z.of_nat (length l) /\
  (forall u, u ∈ l -> u ∉ seen (crawler s)) /\
  (forall u, retired u s -> retired u s' /\ u ∉ l).
Proof.
  induction sched as [|a rest IH]; intros s h s' l Hinv Hok Hrun; cbn in Hrun.
  - injection Hrun as <- <-. rewrite app_nil_r. split_and!; try done.
    + cbn. lia.
    + cbn. lia.
    + intros u Hu. by apply elem_of_nil in Hu.
    + intros u Hu. split; [done|]. intros Hc. by apply elem_of_nil in Hc.
  - apply Forall_cons in Hok as [Ha Hrest].
    destruct (do_action' a s) as [[s1 l1]|] eqn:Hdo; [|done].
    destruct (execute' rest s1) as [[s2 l2]|] eqn:Hrun2; [|done].
    injection Hrun as <- <-.
    destruct (do_action_step _ _ _ _ _ _ Hinv Ha Hdo) as (gone & Htr & Hst & Hm).
    pose proof (invariant_step _ _ _ _ _ _ Hinv Htr Hst) as Hinv1.
    destruct (IH _ _ _ _ Hinv1 Hrest Hrun2) as (Hinv2 & Hm2 & Hs2 & Hd2 & Ht2 & Hf2 & Hr2).
    rewrite <- app_assoc in Hinv2. split_and!; try done.
    + cbn. lia.
    + etrans; [apply (tr_seen _ _ _ _ Htr)|done].
    + etrans; [apply (tr_done_mono _ _ _ _ Htr)|done].
    + rewrite Ht2, (tr_total _ _ _ _ Htr), length_app. lia.
    + intros u [Hu|Hu]%elem_of_app.
      * by apply (tr_fresh _ _ _ _ Htr).
      * intros Hc. apply (Hf2 u Hu). by apply (tr_seen _ _ _ _ Htr).
    + intros u Hu. destruct (retired_step _ _ _ _ _ Htr Hu) as [Hu1 Hl1].
      destruct (Hr2 u Hu1) as [Hu2 Hl2]. split; [done|].
      intros [?|?]%elem_of_app; done.
Qed.

(** Everything a run from a new crawler reaches. *)
Lemma reach_invariant urls n lim c0 sched s h :
  Crawler_init urls n lim = Ok c0 ->
  Forall action_ok sched ->
  execute' sched (init_system c0) = Some (s, h) ->
  invariant c0 s h /\ (measure s + length sched <= 2 + 2 * Z.to_nat lim)%nat.
Proof.
  intros Hinit Hok Hrun.
  destruct (run_invariant c0 sched _ _ _ _ (init_invariant _ _ _ _ Hinit) Hok Hrun)
    as (Hinv & Hm & _).
  split; [done|].
  injection Hinit as <-. revert Hm. unfold measure, budget. cbn.
  rewrite Z.sub_0_r. lia.
Qed.

(** ** The budget *)

(** C1.  Whatever blocks the event loop runs and in whatever order, the
    counter [total] never exceeds [limit] (for a limit that is not negative,
    as the configuration has it; below zero [total] stays at 0); and from a
    state where [total] has reached [limit] on, no block enqueues an address
    any more, whatever is discovered: [put_todo] returns at once. *)
Theorem budget_respected urls n lim c0 sched s h :
  Crawler_init urls n lim = Ok c0 ->
  Forall action_ok sched ->
  execute' sched (init_system c0) = Some (s, h) ->
  limit (crawler s) = lim /\
  total (crawler s) <= Z.max 0 lim /\
  (0 <= lim -> total (crawler s) <= lim) /\
  (lim <= total (crawler s) ->
   (forall url, put_todo (crawler s) url = crawler s) /\
   forall sched' s' l',
     Forall action_ok sched' ->
     execute' sched' s = Some (s', l') ->
     l' = [] /\ total (crawler s') = total (crawler s)).
Proof.
  intros Hinit Hok Hrun.
  destruct (reach_invariant _ _ _ _ _ _ _ Hinit Hok Hrun) as [Hinv _].
  destruct (init_fields _ _ _ _ Hinit) as (Hl0 & _ & _).
  pose proof (inv_limit _ _ _ Hinv) as Hl. rewrite Hl0 in Hl.
  pose proof (inv_budget _ _ _ Hinv) as Hb. rewrite Hl in Hb.
  pose proof (inv_total _ _ _ Hinv) as Hth.
  split_and!; [done | done | lia |].
  intros Hfull. split.
  - intros url. unfold put_todo. rewrite Hl.
    by destruct (Z.geb_spec (total (crawler s)) lim); [|lia].
  - intros sched' s' l' Hok' Hrun'.
    destruct (run_invariant c0 sched' _ _ _ _ Hinv Hok' Hrun')
      as (Hinv' & Hm & _ & _ & Ht & _ & _).
    pose proof (inv_budget _ _ _ Hinv') as Hb'.
    rewrite (inv_limit _ _ _ Hinv'), Hl0 in Hb'.
    assert (Hnil : l' = []).
    { destruct l'; [done|]. cbn in Ht. lia. }
    subst l'. cbn in Ht. split; [done | lia].
Qed.

(** ** No address twice *)

(** C2.  In every run each address is enqueued into the frontier at most
    once: the list of all addresses enqueued so far, in order, has no
    repetition.  The test against [seen] and the insertion into it belong
    to one block, so whatever a further [on_found_links] enqueues is new both
    to [seen] and to everything enqueued before. *)
Theorem enqueued_at_most_once urls n lim c0 sched s h :
  Crawler_init urls n lim = Ok c0 ->
  Forall action_ok sched ->
  execute' sched (init_system c0) = Some (s, h) ->
  NoDup h /\
  (forall u, u ∈ h -> u ∈ seen (crawler s)) /\
  (forall iter batch u,
     iter_ok iter ->
     let c' := (on_found_links iter batch (crawler s)).2 in
     u ∈ enqueued (crawler s) c' ->
     (u ∉ h) /\ (u ∉ seen (crawler s)) /\ (u ∈ seen c') /\ NoDup (enqueued (crawler s) c')).
Proof.
  intros Hinit Hok Hrun.
  destruct (reach_invariant _ _ _ _ _ _ _ Hinit Hok Hrun) as [Hinv _].
  split_and!; [apply Hinv | apply Hinv |].
  intros iter batch u Hit c' Hu.
  pose proof (admits_on_found_links iter batch (crawler s) Hit) as Ha.
  unfold c' in *. rewrite (admits_enqueued _ _ _ Ha) in *.
  destruct (adm_fresh _ _ _ Ha u Hu) as [Hn Hs].
  split_and!; [|done|done|apply Ha].
  intros Hh. by apply Hn, (inv_hist_seen _ _ _ Hinv).
Qed.

(** ** Termination *)

Lemma progress c0 s h :
  invariant c0 s h -> 1 <= num_workers c0 -> stage s <> Stopped ->
  exists a s' l, action_ok a /\ do_action' a s = Some (s', l).
Proof.
  intros Hinv Hn Hst.
  pose proof (inv_stage _ _ _ Hinv) as Hsi. unfold stage_inv in Hsi.
  destruct (stage s) eqn:Hstage; [| |done].
  - exists (Seed elements). eexists _, _. split; [apply iter_ok_elements|].
    cbv beta iota zeta delta [do_action]. by rewrite Hstage.
  - destruct Hsi as [Hlive Hlen].
    pose proof (inv_unfinished _ _ _ Hinv) as Hu. unfold active in Hu.
    destruct (crawling_urls (workers s)) as [|u us] eqn:Hcu.
    + destruct (Queue.items (todo (crawler s))) as [|url rest] eqn:Hitems.
      * exists Join. eexists _, _. split; [done|].
        cbv beta iota zeta delta [do_action]. rewrite Hstage.
        unfold Queue.drained. by rewrite Hu.
      * destruct (workers s) as [|w ws] eqn:Hws; [cbn in Hlen; lia|].
        apply Forall_cons in Hlive as [Hw _].
        destruct w; cbn in Hw, Hcu; try done.
        exists (Get 0%nat). eexists _, _. split; [done|].
        cbv beta iota zeta delta [do_action]. rewrite Hstage, Hws. cbn.
        unfold Queue.get_nowait. by rewrite Hitems.
    + assert (Hin : u ∈ crawling_urls (workers s)) by (rewrite Hcu; by left).
      apply crawling_urls_elem in Hin as [i Hi].
      destruct (process_one' elements u (Raise TransportError) (crawler s))
        as [c' e] eqn:Hpo.
      exists (Finish i (Raise TransportError) elements). eexists _, _.
      split; [apply iter_ok_elements|].
      cbv beta iota zeta delta [do_action]. rewrite Hstage, Hi. cbn.
      by rewrite Hpo.
Qed.

Lemma drains c0 n : forall s h,
  (measure s <= n)%nat -> invariant c0 s h -> 1 <= num_workers c0 ->
  exists sched s' l,
    Forall action_ok sched /\ execute' sched s = Some (s', l) /\ stage s' = Stopped.
Proof.
  induction n as [|n IH]; intros s h Hm Hinv Hn.
  - destruct (decide (stage s = Stopped)) as [Hst|Hst].
    + by exists [], s, [].
    + destruct (progress _ _ _ Hinv Hn Hst) as (a & s1 & l1 & Ha & Hdo).
      destruct (do_action_step _ _ _ _ _ _ Hinv Ha Hdo) as (_ & _ & _ & Hlt). lia.
  - destruct (decide (stage s = Stopped)) as [Hst|Hst].
    + by exists [], s, [].
    + destruct (progress _ _ _ Hinv Hn Hst) as (a & s1 & l1 & Ha & Hdo).
      destruct (do_action_step _ _ _ _ _ _ Hinv Ha Hdo) as (gone & Htr & Hsi & Hlt).
      pose proof (invariant_step _ _ _ _ _ _ Hinv Htr Hsi) as Hinv1.
      destruct (IH s1 _ ltac:(lia) Hinv1 Hn) as (sched & s2 & l2 & Hok & Hrun & Hstop).
      exists (a :: sched), s2, (l1 ++ l2). split_and!; [by constructor| |done].
      cbn. by rewrite Hdo, Hrun.
Qed.

(** C3.  With at least one worker, and a fetcher that always answers (a
    response or an exception), every run ends: no schedule is longer than
    [2 * limit + 2] blocks, whatever the pages link to, so in particular on
    a finite closed link graph; as long as the run has not stopped some
    block can run; the stop can always be reached; and in a stopped run
    [join] has returned on a drained queue and every worker has left its
    loop through the cancellation, none is left waiting in [get]. *)
Theorem run_terminates urls n lim c0 sched s h :
  Crawler_init urls n lim = Ok c0 ->
  1 <= n ->
  Forall action_ok sched ->
  execute' sched (init_system c0) = Some (s, h) ->
  (length sched <= 2 * Z.to_nat lim + 2)%nat /\
  (stage s <> Stopped ->
   exists a s' l, action_ok a /\ do_action' a s = Some (s', l)) /\
  (exists sched' s' l,
     Forall action_ok sched' /\ execute' sched' s = Some (s', l) /\ stage s' = Stopped) /\
  (stage s = Stopped ->
   Forall (eq Cancelled) (workers s) /\
   length (workers s) = Z.to_nat n /\
   todo (crawler s) = Queue.new /\
   forall a, do_action' a s = None).
Proof.
  intros Hinit Hw Hok Hrun.
  destruct (reach_invariant _ _ _ _ _ _ _ Hinit Hok Hrun) as [Hinv Hm].
  destruct (init_fields _ _ _ _ Hinit) as (_ & Hnw & _).
  split_and!.
  - lia.
  - intros Hst. eapply progress; [done | by rewrite Hnw | done].
  - eapply drains; [done | done | by rewrite Hnw].
  - intros Hst. pose proof (inv_stage _ _ _ Hinv) as Hsi.
    unfold stage_inv in Hsi. rewrite Hst in Hsi. destruct Hsi as (Hc & Hlen & Hu).
    split_and!; [done | by rewrite Hlen, Hnw | |].
    + pose proof (inv_unfinished _ _ _ Hinv) as Hact. rewrite Hu in Hact.
      symmetry in Hact. apply length_zero_iff_nil in Hact.
      unfold active in Hact. apply app_eq_nil in Hact as [_ Hit].
      destruct (todo (crawler s)); cbn in *. by subst.
    + intros a. destruct a; cbv beta iota zeta delta [do_action]; by rewrite Hst.
Qed.

(** ** Addresses dropped at the budget *)

Lemma retired_unseen_history c0 s h u :
  invariant c0 s h -> u ∈ seen (crawler s) -> u ∉ h -> retired u s.
Proof.
  intros Hinv Hs Hh. split_and!; [done| |].
  - intros Ha. by apply Hh, (inv_active_hist _ _ _ Hinv).
  - intros Hd. by apply Hh, (inv_done _ _ _ Hinv).
Qed.

Lemma retired_never_crawled u s :
  retired u s ->
  (u ∉ Queue.items (todo (crawler s))) /\
  (forall i, workers s !! i <> Some (Crawling u)) /\
  (u ∉ done (crawler s)).
Proof.
  intros (_ & Ha & Hd). unfold active in Ha. split_and!; [| |done].
  - intros Hq. apply Ha, elem_of_app. by right.
  - intros i Hi. apply Ha, elem_of_app. left. by eapply crawling_urls_lookup.
Qed.

(** C4.  One address at a time, [put_todo] below the limit adds one to
    [total] and enqueues the address, and at the limit it changes nothing.
    For a batch proposed in a reachable state this means: the whole batch is
    recorded in [seen]; the first [limit - total] new addresses, in
    iteration order, are enqueued and counted; every new address after them
    finds the counter at the limit and is dropped: it is in [seen], but
    neither in the frontier nor among the addresses enqueued so far.  And an
    address that is in [seen] without having been enqueued is never
    enqueued later, never handed to a worker and never in [done]. *)
Theorem budget_cutoff urls n lim c0 sched s h :
  Crawler_init urls n lim = Ok c0 ->
  Forall action_ok sched ->
  execute' sched (init_system c0) = Some (s, h) ->
  (forall c url,
     (total c < limit c ->
      total (put_todo c url) = total c + 1 /\
      Queue.items (todo (put_todo c url)) = Queue.items (todo c) ++ [url]) /\
     (limit c <= total c -> put_todo c url = c)) /\
  (forall iter batch,
     iter_ok iter ->
     let c := crawler s in
     let novel := iter (batch ∖ seen c) in
     let c' := (on_found_links iter batch c).2 in
     seen c' = seen c ∪ batch /\
     Queue.items (todo c') = Queue.items (todo c) ++ take (budget c) novel /\
     total c' = total c + Z.of_nat (length (take (budget c) novel)) /\
     forall u, u ∈ drop (budget c) novel ->
       limit c' <= total c' /\ (u ∈ seen c') /\
       (u ∉ Queue.items (todo c')) /\ (u ∉ h ++ take (budget c) novel)) /\
  (forall u, u ∈ seen (crawler s) -> u ∉ h ->
     forall sched' s' l',
       Forall action_ok sched' ->
       execute' sched' s = Some (s', l') ->
       (u ∉ l') /\ (u ∉ Queue.items (todo (crawler s'))) /\
       (forall i, workers s' !! i <> Some (Crawling u)) /\
       (u ∉ done (crawler s'))).
Proof.
  intros Hinit Hok Hrun.
  destruct (reach_invariant _ _ _ _ _ _ _ Hinit Hok Hrun) as [Hinv _].
  split_and!.
  - intros c url. unfold put_todo. split.
    + intros Hlt. destruct (Z.geb_spec (total c) (limit c)); [lia|]. by cbn.
    + intros Hge. by destruct (Z.geb_spec (total c) (limit c)); [|lia].
  - intros iter batch Hit c novel c'.
    pose proof (iter_ok_NoDup iter (batch ∖ seen c) Hit) as Hnd.
    fold novel in Hnd. rewrite <- (take_drop (budget c) novel) in Hnd.
    apply NoDup_app in Hnd as (_ & Hdisj & _).
    unfold c'. rewrite on_found_links_eq. cbn. fold novel.
    split_and!; try done.
    intros u Hu.
    assert (Hnovel : u ∈ batch ∖ seen c).
    { apply (iter_ok_elem iter); [done|]. fold novel.
      rewrite <- (take_drop (budget c) novel). apply elem_of_app. by right. }
    apply elem_of_difference in Hnovel as [Hb Hns].
    assert (Hlen : (budget c < length novel)%nat).
    { destruct (decide (budget c < length novel)%nat) as [|Hge]; [done|].
      rewrite drop_ge in Hu by lia. by apply elem_of_nil in Hu. }
    split_and!.
    + rewrite length_take. unfold budget in *. lia.
    + apply elem_of_union. by right.
    + intros [Hq|Ht]%elem_of_app; [|by eapply Hdisj].
      apply Hns, (inv_hist_seen _ _ _ Hinv), (inv_active_hist _ _ _ Hinv).
      unfold active. apply elem_of_app. by right.
    + intros [Hh|Ht]%elem_of_app; [|by eapply Hdisj].
      by apply Hns, (inv_hist_seen _ _ _ Hinv).
  - intros u Hs Hh sched' s' l' Hok' Hrun'.
    pose proof (retired_unseen_history _ _ _ _ Hinv Hs Hh) as Hret.
    destruct (run_invariant c0 sched' _ _ _ _ Hinv Hok' Hrun')
      as (_ & _ & _ & _ & _ & _ & Hr).
    destruct (Hr u Hret) as [Hret' Hl].
    destruct (retired_never_crawled _ _ Hret') as (? & ? & ?). by split_and!.
Qed.

(** ** Failures *)

(** C8.  When the pipeline of an address a worker is crawling raises
    (the fetch, the extraction or the filter on a malformed address), the
    block still completes: the worker is back at [todo.get()], the run goes
    on, nothing was enqueued, and [seen], [done], [total] and the queue are
    as before.  The address was counted when it was enqueued and stays
    counted; it is never enqueued again, never handed to a worker again and
    never enters [done]; and no worker task ever dies of an exception. *)
Theorem failure_contained urls n lim c0 sched s h i url fetched iter :
  Crawler_init urls n lim = Ok c0 ->
  Forall action_ok sched ->
  execute' sched (init_system c0) = Some (s, h) ->
  workers s !! i = Some (Crawling url) ->
  iter_ok iter ->
  is_Ok (crawl' iter url fetched (crawler s)) = false ->
  exists s',
    do_action' (Finish i fetched iter) s = Some (s', []) /\
    workers s' = <[i := Waiting]> (workers s) /\
    stage s' = Joining /\
    seen (crawler s') = seen (crawler s) /\
    done (crawler s') = done (crawler s) /\
    total (crawler s') = total (crawler s) /\
    Queue.items (todo (crawler s')) = Queue.items (todo (crawler s)) /\
    (url ∈ h) /\ (url ∉ done (crawler s')) /\
    forall sched' s'' l',
      Forall action_ok sched' ->
      execute' sched' s' = Some (s'', l') ->
      (url ∉ l') /\ (url ∉ Queue.items (todo (crawler s''))) /\
      (forall j, workers s'' !! j <> Some (Crawling url)) /\
      (url ∉ done (crawler s'')) /\
      total (crawler s) <= total (crawler s'') /\
      Forall (fun w => forall e, w <> Failed e) (workers s'').
Proof.
  intros Hinit Hok Hrun Hi Hit Hfail.
  destruct (reach_invariant _ _ _ _ _ _ _ Hinit Hok Hrun) as [Hinv _].
  assert (Hst : stage s = Joining).
  { pose proof (inv_stage _ _ _ Hinv) as Hsi. unfold stage_inv in Hsi.
    destruct (stage s); [by rewrite Hsi in Hi | done |].
    destruct Hsi as [Hc _]. eapply Forall_lookup_1 in Hc; [|done]. done. }
  destruct (process_one' iter url fetched (crawler s)) as [c' e] eqn:Hpo.
  assert (Hdo : exists s' l, do_action' (Finish i fetched iter) s = Some (s', l)).
  { eexists _, _. cbv beta iota zeta delta [do_action]. rewrite Hst, Hi. cbn.
    by rewrite Hpo. }
  destruct Hdo as (s' & l & Hdo).
  destruct (finish_shape _ _ _ _ _ _ _ _ Hinv Hit Hdo)
    as (url' & c1 & Hi' & _ & _ & Hraise & Hs').
  rewrite Hi in Hi'. injection Hi' as <-.
  destruct (Hraise Hfail) as [-> ->]. rewrite Hfail in Hs'.
  destruct (finish_transition _ _ _ _ _ _ _ _ Hinv Hit Hdo)
    as (url' & Hi' & Htr & Hsi & _).
  rewrite Hi in Hi'. injection Hi' as <-.
  pose proof (invariant_step _ _ _ _ _ _ Hinv Htr Hsi) as Hinv'.
  rewrite app_nil_r in Hinv'.
  assert (Hact : url ∈ active s).
  { apply elem_of_app. left. by eapply crawling_urls_lookup. }
  assert (Hh : url ∈ h) by by apply (inv_active_hist _ _ _ Hinv).
  assert (Hnd : url ∉ done (crawler s)).
  { intros Hd. by apply (inv_done _ _ _ Hinv) in Hd as [_ Hd]. }
  assert (Hret : retired url s').
  { split_and!.
    - apply (tr_seen _ _ _ _ Htr). by apply (inv_hist_seen _ _ _ Hinv).
    - pose proof (inv_active_nodup _ _ _ Hinv) as Hnodup.
      rewrite <- (app_nil_r (active s)), <- (tr_active _ _ _ _ Htr) in Hnodup.
      apply NoDup_app in Hnodup as (_ & Hdisj & _).
      intros Hc. apply (Hdisj url Hc). by left.
    - rewrite Hs'. by cbn. }
  exists s'. rewrite Hs' at 2 3 4 5 6 7 8. cbn.
  split_and!; try done.
  intros sched' s'' l' Hok' Hrun'.
  destruct (run_invariant c0 sched' _ _ _ _ Hinv' Hok' Hrun')
    as (Hinv'' & _ & _ & _ & Ht & _ & Hr).
  destruct (Hr url Hret) as [Hret' Hl].
  destruct (retired_never_crawled _ _ Hret') as (? & ? & ?).
  split_and!; try done.
  - rewrite Ht, Hs'. cbn. lia.
  - pose proof (inv_stage _ _ _ Hinv'') as Hsi''. unfold stage_inv in Hsi''.
    destruct (stage s'').
    + rewrite Hsi''. cbn. constructor.
    + destruct Hsi'' as [Hl'' _]. eapply Forall_impl; [done|].
      intros w Hw e' ->. done.
    + destruct Hsi'' as [Hl'' _]. eapply Forall_impl; [done|].
      intros w <- e'. done.
Qed.

(** ** Link extraction *)

Lemma handle_attr_elem base found a found' :
  handle_attr filter_url base found a = Ok found' ->
  forall u, u ∈ found' <->
    (u ∈ found) \/ (a.1 = "href" /\ filter_url base a.2 = Ok (Some u)).
Proof.
  unfold handle_attr. intros H u.
  destruct (bool_decide (a.1 ≠ "href")) eqn:Hd.
  - apply bool_decide_eq_true in Hd. injection H as <-. split; [by left|].
    by intros [?|[? _]].
  - apply bool_decide_eq_false in Hd. apply dec_stable in Hd.
    destruct (filter_url base a.2) as [[v|]|e] eqn:Hf; cbn in H; [| |done].
    + injection H as <-. rewrite elem_of_union, elem_of_singleton.
      split; [intros [? | ->]; auto | intros [? | [_ [= ->]]]; auto].
    + injection H as <-. split; [by left|]. by intros [?|[_ ?]].
Qed.

Lemma for_each_attr_elem base attrs : forall found found',
  for_each (handle_attr filter_url base) found attrs = Ok found' ->
  forall u, u ∈ found' <->
    (u ∈ found) \/
    (exists v, (("href" : string), v) ∈ attrs /\ filter_url base v = Ok (Some u)).
Proof.
  induction attrs as [|a attrs IH]; intros found found' H u; cbn in H.
  - injection H as <-. split; [by left|]. intros [?|(v & Hv & _)]; [done|].
    by apply elem_of_nil in Hv.
  - destruct (handle_attr filter_url base found a) as [found1|e] eqn:Ha; [|done].
    rewrite (IH _ _ H u), (handle_attr_elem _ _ _ _ Ha u).
    split.
    + intros [[?|[Hn Hf]]|(v & Hv & Hf)]; [by left| |].
      * right. exists a.2. split; [|done]. destruct a as [n v]. cbn in *. subst n. by left.
      * right. exists v. split; [by right|done].
    + intros [?|(v & Hv & Hf)]; [by left; left|].
      apply elem_of_cons in Hv as [<- | Hv]; [left; right; by cbn|].
      right. by exists v.
Qed.

Lemma for_each_tag_elem base tags : forall found found',
  for_each (handle_starttag filter_url base) found tags = Ok found' ->
  forall u, u ∈ found' <->
    (u ∈ found) \/
    (exists attrs v, (("a" : string), attrs) ∈ tags /\ (("href" : string), v) ∈ attrs /\
                     filter_url base v = Ok (Some u)).
Proof.
  induction tags as [|t tags IH]; intros found found' H u; cbn in H.
  - injection H as <-. split; [by left|]. intros [?|(? & ? & Hv & _)]; [done|].
    by apply elem_of_nil in Hv.
  - destruct (handle_starttag filter_url base found t) as [found1|e] eqn:Ht; [|done].
    rewrite (IH _ _ H u). clear IH H.
    unfold handle_starttag in Ht.
    destruct (bool_decide (t.1 ≠ "a")) eqn:Hd.
    + apply bool_decide_eq_true in Hd. injection Ht as <-. split.
      * intros [?|(attrs & v & Hin & Hv & Hf)]; [by left|].
        right. exists attrs, v. split_and!; [by right|done..].
      * intros [?|(attrs & v & Hin & Hv & Hf)]; [by left|].
        apply elem_of_cons in Hin as [<- | Hin]; [done|].
        right. by exists attrs, v.
    + apply bool_decide_eq_false in Hd. apply dec_stable in Hd.
      rewrite (for_each_attr_elem _ _ _ _ Ht u). split.
      * intros [[?|(v & Hv & Hf)]|(attrs & v & Hin & Hv & Hf)]; [by left| |].
        -- right. exists t.2, v. split_and!; [|done..].
           destruct t as [n attrs]. cbn in *. subst n. by left.
        -- right. exists attrs, v. split_and!; [by right|done..].
      * intros [?|(attrs & v & Hin & Hv & Hf)]; [by left; left|].
        apply elem_of_cons in Hin as [<- | Hin]; [left; right; by exists v|].
        right. by exists attrs, v.
Qed.

(** C7.  After a successful fetch, the links handed to admission control
    are exactly the accepted results of the scope filter applied, with the
    address of the response (the one after redirects) as its base, to the
    [href] values of the document's [a] tags.  The requested address plays
    no part in it: it only goes into [done]. *)
Theorem links_resolved_against_final_address iter url response c c' :
  crawl' iter url (Ok response) c = Ok c' ->
  exists tags found,
    html_starttags (r_text response) = Ok tags /\
    (forall u, u ∈ found <->
       exists attrs v, (("a" : string), attrs) ∈ tags /\ (("href" : string), v) ∈ attrs /\
                       filter_url (r_url response) v = Ok (Some u)) /\
    c' = set_done (done c ∪ {[url]}) (on_found_links iter found c).2 /\
    forall url2,
      crawl' iter url2 (Ok response) c =
        Ok (set_done (done c ∪ {[url2]}) (on_found_links iter found c).2).
Proof.
  intros Hc.
  destruct (crawl_cases iter url (Ok response) c)
    as [[e He]|(resp & found & [= <-] & Hp & He)]; [by rewrite He in Hc|].
  rewrite He in Hc. injection Hc as <-.
  unfold parse_links in Hp.
  destruct (html_starttags (r_text response)) as [tags|e] eqn:Htags; [|done].
  cbn in Hp. exists tags, found. split_and!; [done| |done|].
  - intros u. rewrite (for_each_tag_elem _ _ _ _ Hp u). split; [|by right].
    intros [Hn|?]; [|done]. by apply not_elem_of_empty in Hn.
  - intros url2. unfold crawl. cbn. unfold parse_links. rewrite Htags. cbn.
    rewrite Hp. cbn. by rewrite put_todo_foldl.
Qed.

(** ** Configuration *)

(** C9, as the code has it.  The constructor checks nothing: a worker
    count that is zero or negative is stored like any other and the run
    starts.  It then has no worker at all, so that once the seeds put
    anything into the frontier, no block can ever run again: [join] does not
    return and nothing is reported. *)
Theorem worker_count_not_validated urls n lim iter :
  n <= 0 ->
  iter_ok iter ->
  exists c0 s l,
    Crawler_init urls n lim = Ok c0 /\
    num_workers c0 = n /\
    do_action' (Seed iter) (init_system c0) = Some (s, l) /\
    workers s = [] /\
    stage s = Joining /\
    (l <> [] -> forall a, do_action' a s = None).
Proof.
  intros Hw Hit.
  set (c0 := mkCrawler (list_to_set urls) Queue.new ∅ ∅ n lim 0).
  set (c' := (on_found_links iter (start_urls c0) c0).2).
  assert (Hn : Z.to_nat n = 0%nat) by lia.
  exists c0, (mkSystem c' [] Joining), (enqueued c0 c').
  pose proof (admits_on_found_links iter (start_urls c0) c0 Hit) as Ha.
  fold c' in Ha.
  split_and!; try reflexivity.
  - cbv beta iota zeta delta [do_action]. cbn -[on_found_links]. by rewrite Hn.
  - intros Hl a. rewrite (admits_enqueued _ _ _ Ha) in Hl.
    destruct a; cbv beta iota zeta delta [do_action]; cbn -[on_found_links]; try done.
    unfold Queue.drained. rewrite (adm_unfinished _ _ _ Ha).
    by destruct (take _ _).
Qed.

End Engine.

(** ** The value of [on_found_links] *)

(** C5, as the code has it.  [on_found_links] has no [return]: its value is
    [None] whatever was enqueued.  What the call enqueued can be read off the
    frontier only: the items appended to [todo], which are the first
    [limit - total] new addresses of the batch in iteration order, all of
    them proposed and none of them seen before. *)
Theorem on_found_links_returns_none iter batch c :
  iter_ok iter ->
  let r := on_found_links iter batch c in
  r.1 = None /\
  Queue.items (todo r.2) = Queue.items (todo c) ++ enqueued c r.2 /\
  enqueued c r.2 = take (budget c) (iter (batch ∖ seen c)) /\
  forall u, u ∈ enqueued c r.2 -> (u ∈ batch) /\ (u ∉ seen c).
Proof.
  intros Hit r. pose proof (admits_on_found_links iter batch c Hit) as Ha.
  fold r in Ha. rewrite (admits_enqueued _ _ _ Ha).
  split_and!; [done | apply Ha | done |].
  intros u Hu%elem_of_take_elem. apply (iter_ok_elem iter) in Hu; [|done].
  by apply elem_of_difference in Hu.
Qed.

(** ** The scope filter *)

Lemma rpartition_absent c s :
  PyStr.contains c s = false -> PyStr.rpartition c s = (EmptyString, false, s).
Proof.
  induction s as [|a s IH]; cbn; [done|].
  destruct (Ascii.eqb a c); [done|]. intros H. by rewrite (IH H).
Qed.

Lemma rejects_spec allowed x :
  UrlFilterer.rejects allowed x = true <-> exists xs, allowed = Some xs /\ (x ∉ xs).
Proof.
  unfold UrlFilterer.rejects. destruct allowed as [xs|].
  - rewrite bool_decide_eq_true. split; [by exists xs | by intros (? & [= <-] & ?)].
  - split; [done | by intros (? & ? & _)].
Qed.

(** ** Fragments

    What [urldefrag] returns has no fragment mark left. *)

Section Fragment.

Import PyStr.

Lemma lacks_cons c a s : lacks c (String a s) <-> Ascii.eqb a c = false /\ lacks c s.
Proof.
  unfold lacks. cbn. destruct (Ascii.eqb a c); split; try done; by intros [? ?].
Qed.

Lemma lacks_app c s t : lacks c s -> lacks c t -> lacks c (s +:+ t).
Proof.
  induction s as [|a s IH]; [done|].
  intros [? ?]%lacks_cons ?.
  change (String a s +:+ t) with (String a (s +:+ t)).
  apply lacks_cons. split; auto.
Qed.

Lemma partition_head_lacks c s : lacks c (partition c s).1.1.
Proof.
  induction s as [|a s IH]; cbn; [done|].
  destruct (Ascii.eqb a c) eqn:E; [done|].
  destruct (partition c s) as [[h f] t]. cbn in *. by apply lacks_cons.
Qed.

Lemma partition_lacks c d s :
  lacks d s -> lacks d (partition c s).1.1 /\ lacks d (partition c s).2.
Proof.
  induction s as [|a s IH]; cbn; [done|].
  rewrite lacks_cons. intros [Ha Hs].
  destruct (Ascii.eqb a c); [done|].
  destruct (partition c s) as [[h f] t]. cbn in *.
  destruct (IH Hs). split; [by apply lacks_cons|done].
Qed.

Lemma rpartition_lacks c d s :
  lacks d s -> lacks d (rpartition c s).1.1 /\ lacks d (rpartition c s).2.
Proof.
  induction s as [|a s IH]; cbn; [done|].
  rewrite lacks_cons. intros [Ha Hs].
  destruct (rpartition c s) as [[h f] t]. cbn in *. destruct (IH Hs).
  destruct f; cbn; [split; [by apply lacks_cons|done]|].
  destruct (Ascii.eqb a c); cbn; [done|]. split; [done|by apply lacks_cons].
Qed.

Lemma lstrip_lacks p d s : lacks d s -> lacks d (lstrip p s).
Proof.
  induction s as [|a s IH]; cbn; [done|].
  intros H. destruct (p a); [|done]. apply IH. by apply lacks_cons in H as [_ ?].
Qed.

Lemma rstrip_lacks p d s : lacks d s -> lacks d (rstrip p s).
Proof.
  induction s as [|a s IH]; cbn; [done|].
  rewrite lacks_cons. intros [? ?]. destruct (p a && _); [done|].
  apply lacks_cons. split; auto.
Qed.

Lemma remove_lacks p d s : lacks d s -> lacks d (remove p s).
Proof.
  induction s as [|a s IH]; cbn; [done|].
  rewrite lacks_cons. intros [? ?]. destruct (p a); [auto|].
  apply lacks_cons. split; auto.
Qed.

Lemma skip_lacks n d s : lacks d s -> lacks d (skip n s).
Proof.
  revert s. induction n as [|n IH]; intros [|a s]; cbn; try done.
  rewrite lacks_cons. intros [? ?]. auto.
Qed.

Lemma drop_last_lacks d s : lacks d s -> lacks d (drop_last s).
Proof.
  induction s as [|a s IH]; cbn; [done|].
  rewrite lacks_cons. intros [? ?]. destruct (is_empty s); [done|].
  apply lacks_cons. split; auto.
Qed.

Lemma scheme_char_lower a :
  Urllib.scheme_char a = true -> Ascii.eqb (to_lower a) "#" = false.
Proof.
  destruct a as [[] [] [] [] [] [] [] []]; vm_compute; congruence.
Qed.

Lemma lower_scheme_lacks s : all Urllib.scheme_char s = true -> lacks "#" (lower s).
Proof.
  induction s as [|a s IH]; cbn; [done|].
  intros [Ha Hs]%andb_true_iff. apply lacks_cons. split; [by apply scheme_char_lower|auto].
Qed.

Lemma splitnetloc_head_lacks s : lacks "#" (Urllib.splitnetloc s).1.
Proof.
  induction s as [|a s IH]; cbn; [done|].
  destruct (Ascii.eqb a "/" || Ascii.eqb a "?" || Ascii.eqb a "#") eqn:E; [done|].
  destruct (Urllib.splitnetloc s) as [d r]. cbn in *. apply lacks_cons.
  split; [|done]. by apply orb_false_iff in E as [_ ?].
Qed.

Lemma partition_absent c s :
  (partition c s).1.2 = false -> (partition c s).1.1 = s.
Proof.
  induction s as [|a s IH]; cbn; [done|].
  destruct (Ascii.eqb a c); [done|].
  destruct (partition c s) as [[h f] t]. cbn in *. intros H. by rewrite (IH H).
Qed.

Lemma urlsplit_lacks h1 h2 url scheme r :
  lacks "#" scheme ->
  Urllib.urlsplit h1 h2 url scheme = Ok r ->
  lacks "#" (Urllib.s_scheme r) /\ lacks "#" (Urllib.s_netloc r) /\
  lacks "#" (Urllib.s_path r) /\ lacks "#" (Urllib.s_query r).
Proof.
  intros Hs. unfold Urllib.urlsplit.
  set (url0 := remove _ (lstrip _ url)).
  assert (Hs0 : lacks "#" (remove Urllib.unsafe_byte (strip Urllib.c0_control_or_space scheme))).
  { apply remove_lacks, lstrip_lacks, rstrip_lacks, Hs. }
  set (sch0 := remove _ (strip _ scheme)) in *.
  destruct (match partition ":" url0 with
            | (pre, true, post) => _ | (_, false, _) => _ end) as [sch1 url1] eqn:E1.
  assert (Hs1 : lacks "#" sch1).
  { destruct (partition ":" url0) as [[pre []] post]; [|by injection E1 as <- _].
    destruct pre as [|a pre]; [by injection E1 as <- _|].
    destruct (is_alpha a && all Urllib.scheme_char (String a pre)) eqn:Ea;
      [|by injection E1 as <- _].
    injection E1 as <- _. apply lower_scheme_lacks.
    by apply andb_true_iff in Ea as [_ ?]. }
  clear E1.
  destruct (if startswith "//" url1 then _ else _) as [[nl url2]|e] eqn:E2; [|done].
  assert (Hnl : lacks "#" nl).
  { destruct (startswith "//" url1); [|by injection E2 as <- _].
    pose proof (splitnetloc_head_lacks (skip 2 url1)) as Hh.
    destruct (Urllib.splitnetloc (skip 2 url1)) as [nl' rest].
    destruct (_ || _); [done|].
    destruct (_ && _).
    - destruct (Urllib.check_bracketed_netloc h1 nl'); [|done]. by injection E2 as <- _.
    - by injection E2 as <- _. }
  clear E2. cbn.
  destruct (match partition "#" url2 with
            | (u, true, f) => _ | (_, false, _) => _ end) as [url3 frag] eqn:E3.
  assert (H3 : lacks "#" url3).
  { pose proof (partition_head_lacks "#" url2) as Hh.
    pose proof (partition_absent "#" url2) as Ha.
    destruct (partition "#" url2) as [[u []] f]; cbn in *.
    - by injection E3 as <- _.
    - injection E3 as <- _. by rewrite <- Ha. }
  clear E3.
  destruct (match partition "?" url3 with
            | (u, true, q) => _ | (_, false, _) => _ end) as [url4 qry] eqn:E4.
  assert (H4 : lacks "#" url4 /\ lacks "#" qry).
  { destruct (partition_lacks "?" "#" url3 H3) as [Hh Ht].
    destruct (partition "?" url3) as [[u []] q]; cbn in *.
    - by injection E4 as <- <-.
    - by injection E4 as <- <-. }
  clear E4. destruct H4.
  destruct (Urllib.checknetloc h2 nl); [|done]. cbn.
  intros [= <-]. by cbn.
Qed.

Lemma splitparams_lacks d s :
  lacks d s -> Ascii.eqb "/" d = false ->
  lacks d (Urllib.splitparams s).1 /\ lacks d (Urllib.splitparams s).2.
Proof.
  intros Hs Hd. unfold Urllib.splitparams.
  destruct (contains "/" s).
  - destruct (rpartition_lacks "/" d s Hs) as [Hh Ht].
    destruct (rpartition "/" s) as [[h f] t]. cbn in *.
    destruct (partition_lacks ";" d t Ht) as [Hb Ha].
    destruct (partition ";" t) as [[b []] a]; cbn in *; [|done].
    split; [|done]. apply lacks_app; [done|]. apply lacks_app; [|done].
    by apply lacks_cons.
  - destruct (partition_lacks ";" d s Hs) as [Hb Ha].
    destruct (partition ";" s) as [[b []] a]; cbn in *; [done|].
    split; [by apply drop_last_lacks|done].
Qed.

Lemma urlparse_lacks h1 h2 url scheme p :
  lacks "#" scheme ->
  Urllib.urlparse h1 h2 url scheme = Ok p ->
  lacks "#" (Urllib.scheme p) /\ lacks "#" (Urllib.netloc p) /\
  lacks "#" (Urllib.path p) /\ lacks "#" (Urllib.params p) /\
  lacks "#" (Urllib.query p).
Proof.
  intros Hs. unfold Urllib.urlparse.
  destruct (Urllib.urlsplit h1 h2 url scheme) as [r|e] eqn:Er; [|done].
  cbn [mbind Res_bind].
  destruct (urlsplit_lacks _ _ _ _ _ Hs Er) as (H1 & H2 & H3 & H4).
  destruct (splitparams_lacks "#" _ H3 eq_refl) as [H5 H6].
  destruct (in_list (Urllib.s_scheme r) Urllib.uses_params && contains ";" (Urllib.s_path r)).
  - destruct (Urllib.splitparams (Urllib.s_path r)) as [u pa]. cbn in *.
    intros [= Hp]. subst p. by cbn.
  - intros [= Hp]. subst p. by cbn.
Qed.

Lemma urlunparse_lacks p :
  lacks "#" (Urllib.scheme p) -> lacks "#" (Urllib.netloc p) ->
  lacks "#" (Urllib.path p) -> lacks "#" (Urllib.params p) ->
  lacks "#" (Urllib.query p) -> Urllib.fragment p = EmptyString ->
  lacks "#" (Urllib.urlunparse p).
Proof.
  intros H1 H2 H3 H4 H5 H6. unfold Urllib.urlunparse, Urllib.urlunsplit. cbn.
  rewrite H6. cbn.
  repeat (match goal with
          | |- lacks _ (if ?b then _ else _) => destruct b
          | |- lacks _ (_ +:+ _) => apply lacks_app
          end; try done).
Qed.

Lemma urldefrag_lacks h1 h2 url d :
  Urllib.urldefrag h1 h2 url = Ok d -> lacks "#" d.1.
Proof.
  unfold Urllib.urldefrag. destruct (contains "#" url) eqn:E.
  - destruct (Urllib.urlparse h1 h2 url "") as [p|e] eqn:Ep; [|done].
    cbn [mbind Res_bind].
    assert (H0 : lacks "#" "") by done.
    destruct (urlparse_lacks _ _ _ _ _ H0 Ep) as (H1 & H2 & H3 & H4 & H5).
    intros [= <-]. cbn [fst]. by apply urlunparse_lacks.
  - by intros [= <-].
Qed.

End Fragment.

Section FilterFacts.

Variable urljoin : string -> string -> Res string.
Variable urldefrag : string -> Res (string * string).
Variable urlparse : string -> Res Urllib.ParseResult.
Variable path_suffix : string -> string.

Local Abbreviation filter_url' :=
  (UrlFilterer.filter_url urljoin urldefrag urlparse path_suffix).

Lemma filter_url_verdict self base url joined d parsed :
  urljoin base url = Ok joined ->
  urldefrag joined = Ok d ->
  urlparse d.1 = Ok parsed ->
  filter_url' self base url =
    Ok (if UrlFilterer.rejects (UrlFilterer.allowed_schemes self) (Urllib.scheme parsed)
           || UrlFilterer.rejects (UrlFilterer.allowed_domains self) (Urllib.netloc parsed)
           || UrlFilterer.rejects (UrlFilterer.allowed_filetypes self)
                (path_suffix (Urllib.path parsed))
        then None else Some d.1).
Proof.
  intros Hj Hd Hp. unfold UrlFilterer.filter_url. rewrite Hj. cbn. rewrite Hd. cbn.
  rewrite Hp. cbn. by repeat destruct (UrlFilterer.rejects _ _).
Qed.

Lemma filter_url_accepts self base url u :
  filter_url' self base url = Ok (Some u) ->
  exists joined frag parsed,
    urljoin base url = Ok joined /\ urldefrag joined = Ok (u, frag) /\
    urlparse u = Ok parsed /\
    (UrlFilterer.rejects (UrlFilterer.allowed_schemes self) (Urllib.scheme parsed)
     || UrlFilterer.rejects (UrlFilterer.allowed_domains self) (Urllib.netloc parsed)
     || UrlFilterer.rejects (UrlFilterer.allowed_filetypes self)
          (path_suffix (Urllib.path parsed))) = false.
Proof.
  intros H.
  destruct (urljoin base url) as [joined|e] eqn:Hj;
    [|by unfold UrlFilterer.filter_url in H; rewrite Hj in H].
  destruct (urldefrag joined) as [[d frag]|e] eqn:Hd;
    [|by unfold UrlFilterer.filter_url in H; rewrite Hj in H; cbn in H; rewrite Hd in H].
  destruct (urlparse d) as [parsed|e] eqn:Hp;
    [|by unfold UrlFilterer.filter_url in H; rewrite Hj in H; cbn in H;
         rewrite Hd in H; cbn in H; rewrite Hp in H].
  rewrite (filter_url_verdict self base url joined (d, frag) parsed Hj Hd Hp) in H.
  cbn in H. destruct (_ || _) eqn:Hr; [done|]. injection H as <-.
  by exists joined, frag, parsed.
Qed.

End FilterFacts.

(** On Python's library the accepted address has no fragment mark. *)
Lemma py_filter_url_lacks check1 check2 self base url u :
  UrlFilterer.py_filter_url check1 check2 self base url = Ok (Some u) ->
  lacks "#" u.
Proof.
  intros Hu. apply filter_url_accepts in Hu as (joined & frag & _ & _ & Hf & _).
  by apply urldefrag_lacks in Hf.
Qed.

Section FilterClaims.

Variable urljoin : string -> string -> Res string.
Variable urldefrag : string -> Res (string * string).
Variable urlparse : string -> Res Urllib.ParseResult.
Variable path_suffix : string -> string.

Local Abbreviation filter_url' :=
  (UrlFilterer.filter_url urljoin urldefrag urlparse path_suffix).


(** C10, as the code has it.  An accepted address is returned again by a
    second pass against the same base exactly when resolving it against the
    base and taking the fragment off give the address back; the allow-lists
    never change the outcome of the second pass. *)
Theorem refilter_stable_iff self base url u :
  filter_url' self base url = Ok (Some u) ->
  (filter_url' self base u = Ok (Some u) <->
   exists joined frag, urljoin base u = Ok joined /\ urldefrag joined = Ok (u, frag)).
Proof.
  intros H.
  destruct (filter_url_accepts _ _ _ _ _ _ _ _ H) as (_ & _ & parsed & _ & _ & Hp & Hr).
  split.
  - intros H2.
    destruct (filter_url_accepts _ _ _ _ _ _ _ _ H2) as (j & f & _ & Hj & Hd & _).
    by exists j, f.
  - intros (j & f & Hj & Hd).
    rewrite (filter_url_verdict _ _ _ _ self base u j (u, f) parsed Hj Hd Hp).
    by rewrite Hr.
Qed.

End FilterClaims.

(** ** The properties on the demo site *)

Section DemoRun.

Local Abbreviation demo_run := (execute Demo.filter_url Demo.html_starttags).

(** The demo run: four addresses found, three enqueued, two crawled to the
    end, one failed; the mail link and the image never enter [seen]. *)
Example demo_outcome :
  (fun r : System * list string =>
     (size (seen (crawler r.1)), elements (done (crawler r.1)), total (crawler r.1),
      workers r.1, stage r.1, r.2))
    <$> demo_run Demo.schedule (init_system (Demo.fresh 1 3))
  = Some (4%nat, ["http://localhost/a.html"; "http://localhost/"], 3,
          [Cancelled], Stopped,
          ["http://localhost/"; "http://localhost/a.html"; "http://localhost/c.html"]).
Proof. by vm_compute. Qed.

(** The three ways a pipeline raises: the fetch, the extraction, a
    malformed address in the filter. *)
Example crawl_raises_examples :
  let crawl := crawl Demo.filter_url Demo.html_starttags Demo.order "http://localhost/" in
  crawl (Raise TransportError) (Demo.fresh 1 3) = Raise TransportError /\
  crawl (Ok (mkResponse "http://localhost/" "broken")) (Demo.fresh 1 3) = Raise ValueError /\
  crawl (Ok (mkResponse "http://localhost/" "bad link")) (Demo.fresh 1 3) = Raise ValueError.
Proof. by vm_compute. Qed.

(** Relative references of RFC 3986 against [http://a/b/c/d;p?q]. *)
Example urljoin_examples :
  let join := Urllib.urljoin Urllib.check_bracketed_host Urllib.nfkc_ok "http://a/b/c/d;p?q" in
  join "g" = Ok "http://a/b/c/g" /\
  join "../g" = Ok "http://a/b/g" /\
  join "../../../g" = Ok "http://a/g" /\
  join "//g" = Ok "http://g" /\
  join "?y" = Ok "http://a/b/c/d;p?y" /\
  join "#s" = Ok "http://a/b/c/d;p?q#s" /\
  join "mailto:me@a" = Ok "mailto:me@a" /\
  join "http://[" = Raise ValueError.
Proof. by vm_compute. Qed.

Example suffix_examples :
  Pathlib.suffix "/dir/page.html" = ".html" /\
  Pathlib.suffix "/dir/archive.tar.gz" = ".gz" /\
  Pathlib.suffix "/dir/" = "" /\
  Pathlib.suffix "/dir.d/readme" = "" /\
  Pathlib.suffix "/.hidden" = "" /\
  Pathlib.suffix "" = "".
Proof. by vm_compute. Qed.

(** C5 as stated fails: the seed is enqueued, and the value of the call is
    [None], not the set of what was enqueued. *)
Lemma on_found_links_value_example :
  let c := Demo.fresh 1 3 in
  let r := on_found_links Demo.order (list_to_set Demo.seeds) c in
  enqueued c r.2 = ["http://localhost/"] /\
  r.1 <> Some (list_to_set (enqueued c r.2)).
Proof. split; [by vm_compute | discriminate]. Qed.

(** C9 as stated fails: a crawler with no worker is built without any
    error, and its run starts and admits the seed. *)
Lemma zero_workers_accepted :
  Crawler_init Demo.seeds 0 3 = Ok (Demo.fresh 0 3) /\
  exists s,
    demo_run [Seed Demo.order] (init_system (Demo.fresh 0 3))
      = Some (s, ["http://localhost/"]) /\
    workers s = [] /\ stage s = Joining.
Proof.
  split; [reflexivity|]. eexists. split; [by vm_compute|]. by split.
Qed.

(** C10 as stated fails: with [main]'s filter, the empty link on a page
    whose address ends in a bare question mark is accepted as that address,
    and filtering the result again gives another address. *)
Lemma refilter_changes_address :
  let filter := UrlFilterer.py_filter_url Urllib.check_bracketed_host Urllib.nfkc_ok Demo.filterer in
  filter "http://localhost/b?" "" = Ok (Some "http://localhost/b?") /\
  filter "http://localhost/b?" "http://localhost/b?" = Ok (Some "http://localhost/b") /\
  filter "http://localhost/b?" "http://localhost/b?" <> Ok (Some "http://localhost/b?").
Proof. split_and!; [by vm_compute | by vm_compute | by vm_compute]. Qed.

Lemma demo_prefix_ok : Forall action_ok Demo.prefix.
Proof. repeat (apply Forall_cons; split); try apply Forall_nil; try done;
       intros X; reflexivity. Qed.

Lemma demo_schedule_ok : Forall action_ok Demo.schedule.
Proof. repeat (apply Forall_cons; split); try apply Forall_nil; try done;
       intros X; reflexivity. Qed.

Lemma budget_respected_witness :
  exists s h,
    Crawler_init Demo.seeds 1 3 = Ok (Demo.fresh 1 3) /\
    Forall action_ok Demo.schedule /\
    demo_run Demo.schedule (init_system (Demo.fresh 1 3)) = Some (s, h) /\
    limit (crawler s) = 3 /\ total (crawler s) <= 3.
Proof.
  destruct (demo_run Demo.schedule (init_system (Demo.fresh 1 3)))
    as [[s h]|] eqn:Hrun; [|by vm_compute in Hrun].
  exists s, h.
  assert (H0 : Crawler_init Demo.seeds 1 3 = Ok (Demo.fresh 1 3)) by reflexivity.
  pose proof demo_schedule_ok as H2.
  destruct (budget_respected Demo.filter_url Demo.html_starttags
              Demo.seeds 1 3 (Demo.fresh 1 3) Demo.schedule s h H0 H2 Hrun)
    as (Hl & _ & Ht & _).
  split; [exact H0|]. split; [exact H2|].
  split; [reflexivity|]. split; [exact Hl | apply Ht; lia].
Defined.

Lemma enqueued_at_most_once_witness :
  exists s h,
    Crawler_init Demo.seeds 1 3 = Ok (Demo.fresh 1 3) /\
    Forall action_ok Demo.schedule /\
    demo_run Demo.schedule (init_system (Demo.fresh 1 3)) = Some (s, h) /\
    NoDup h.
Proof.
  destruct (demo_run Demo.schedule (init_system (Demo.fresh 1 3)))
    as [[s h]|] eqn:Hrun; [|by vm_compute in Hrun].
  exists s, h.
  assert (H0 : Crawler_init Demo.seeds 1 3 = Ok (Demo.fresh 1 3)) by reflexivity.
  pose proof demo_schedule_ok as H2.
  destruct (enqueued_at_most_once Demo.filter_url Demo.html_starttags
              Demo.seeds 1 3 (Demo.fresh 1 3) Demo.schedule s h H0 H2 Hrun)
    as (Hnd & _).
  split; [exact H0|]. split; [exact H2|]. split; [reflexivity | exact Hnd].
Defined.

Lemma run_terminates_witness :
  exists s h,
    Crawler_init Demo.seeds 1 3 = Ok (Demo.fresh 1 3) /\
    1 <= 1 /\
    Forall action_ok Demo.schedule /\
    demo_run Demo.schedule (init_system (Demo.fresh 1 3)) = Some (s, h) /\
    (length Demo.schedule <= 2 * Z.to_nat 3 + 2)%nat /\
    exists sched' s' l,
      Forall action_ok sched' /\ demo_run sched' s = Some (s', l) /\ stage s' = Stopped.
Proof.
  destruct (demo_run Demo.schedule (init_system (Demo.fresh 1 3)))
    as [[s h]|] eqn:Hrun; [|by vm_compute in Hrun].
  exists s, h.
  assert (H0 : Crawler_init Demo.seeds 1 3 = Ok (Demo.fresh 1 3)) by reflexivity.
  assert (H1 : 1 <= 1) by lia.
  pose proof demo_schedule_ok as H2.
  destruct (run_terminates Demo.filter_url Demo.html_starttags
              Demo.seeds 1 3 (Demo.fresh 1 3) Demo.schedule s h H0 H1 H2 Hrun)
    as (Hlen & _ & Hstop & _).
  split; [exact H0|]. split; [exact H1|]. split; [exact H2|].
  split; [reflexivity|]. split; [exact Hlen | exact Hstop].
Defined.

Lemma budget_cutoff_witness :
  exists s h,
    Crawler_init Demo.seeds 1 3 = Ok (Demo.fresh 1 3) /\
    Forall action_ok Demo.schedule /\
    demo_run Demo.schedule (init_system (Demo.fresh 1 3)) = Some (s, h) /\
    forall c url, limit c <= total c -> put_todo c url = c.
Proof.
  destruct (demo_run Demo.schedule (init_system (Demo.fresh 1 3)))
    as [[s h]|] eqn:Hrun; [|by vm_compute in Hrun].
  exists s, h.
  assert (H0 : Crawler_init Demo.seeds 1 3 = Ok (Demo.fresh 1 3)) by reflexivity.
  pose proof demo_schedule_ok as H2.
  destruct (budget_cutoff Demo.filter_url Demo.html_starttags
              Demo.seeds 1 3 (Demo.fresh 1 3) Demo.schedule s h H0 H2 Hrun)
    as (Hput & _).
  split; [exact H0|]. split; [exact H2|]. split; [reflexivity|].
  intros c url. exact (proj2 (Hput c url)).
Defined.

Lemma failure_contained_witness :
  exists s h s',
    Crawler_init Demo.seeds 1 3 = Ok (Demo.fresh 1 3) /\
    Forall action_ok Demo.prefix /\
    demo_run Demo.prefix (init_system (Demo.fresh 1 3)) = Some (s, h) /\
    workers s !! 0%nat = Some (Crawling "http://localhost/c.html") /\
    iter_ok Demo.order /\
    is_Ok (crawl Demo.filter_url Demo.html_starttags Demo.order
             "http://localhost/c.html" (Raise TransportError) (crawler s)) = false /\
    do_action Demo.filter_url Demo.html_starttags
      (Finish 0%nat (Raise TransportError) Demo.order) s = Some (s', []) /\
    workers s' = <[0%nat := Waiting]> (workers s) /\
    done (crawler s') = done (crawler s).
Proof.
  destruct (demo_run Demo.prefix (init_system (Demo.fresh 1 3)))
    as [[s h]|] eqn:Hrun; [|by vm_compute in Hrun].
  assert (H0 : Crawler_init Demo.seeds 1 3 = Ok (Demo.fresh 1 3)) by reflexivity.
  pose proof demo_prefix_ok as H2.
  assert (H3 : workers s !! 0%nat = Some (Crawling "http://localhost/c.html")).
  { vm_compute in Hrun. injection Hrun as <- _. reflexivity. }
  assert (H4 : iter_ok Demo.order) by (intros X; reflexivity).
  assert (H5 : is_Ok (crawl Demo.filter_url Demo.html_starttags Demo.order
             "http://localhost/c.html" (Raise TransportError) (crawler s)) = false)
    by reflexivity.
  destruct (failure_contained Demo.filter_url Demo.html_starttags
              Demo.seeds 1 3 (Demo.fresh 1 3) Demo.prefix s h 0%nat
              "http://localhost/c.html" (Raise TransportError) Demo.order
              H0 H2 Hrun H3 H4 H5)
    as (s' & Hdo & Hw & _ & _ & Hd & _).
  exists s, h, s'.
  split; [exact H0|]. split; [exact H2|]. split; [reflexivity|].
  split; [exact H3|]. split; [exact H4|]. split; [exact H5|].
  split; [exact Hdo|]. split; [exact Hw | exact Hd].
Defined.

Lemma links_resolved_witness :
  exists c',
    crawl Demo.filter_url Demo.html_starttags Demo.order "http://localhost/old.html"
      (Ok (mkResponse "http://localhost/new/index.html" "moved")) (Demo.fresh 1 3)
      = Ok c' /\
    Queue.items (todo c') = ["http://localhost/new/page.html"] /\
    exists tags (found : gset string),
      Demo.html_starttags "moved" = Ok tags /\
      forall u, u ∈ found <->
        exists attrs v, (("a" : string), attrs) ∈ tags /\ (("href" : string), v) ∈ attrs /\
          Demo.filter_url "http://localhost/new/index.html" v = Ok (Some u).
Proof.
  destruct (crawl Demo.filter_url Demo.html_starttags Demo.order "http://localhost/old.html"
      (Ok (mkResponse "http://localhost/new/index.html" "moved")) (Demo.fresh 1 3))
    as [c'|e] eqn:Hc; [|by vm_compute in Hc].
  exists c'.
  destruct (links_resolved_against_final_address Demo.filter_url Demo.html_starttags
              _ _ _ _ _ Hc) as (tags & found & Ht & Hf & _).
  split; [reflexivity|]. split; [|by exists tags, found].
  clear Ht Hf. vm_compute in Hc. injection Hc as <-. reflexivity.
Defined.

Lemma worker_count_not_validated_witness :
  0 <= 0 /\ iter_ok Demo.order /\
  exists c0 s l,
    Crawler_init Demo.seeds 0 3 = Ok c0 /\
    num_workers c0 = 0 /\
    do_action Demo.filter_url Demo.html_starttags (Seed Demo.order) (init_system c0)
      = Some (s, l) /\
    workers s = [] /\ stage s = Joining /\
    (l <> [] -> forall a, do_action Demo.filter_url Demo.html_starttags a s = None).
Proof.
  assert (H0 : 0 <= 0) by lia.
  assert (H1 : iter_ok Demo.order) by (intros X; reflexivity).
  split_and!; [done..|].
  exact (worker_count_not_validated Demo.filter_url Demo.html_starttags
           Demo.seeds 0 3 Demo.order H0 H1).
Defined.

Lemma on_found_links_returns_none_witness :
  iter_ok Demo.order /\
  let r := on_found_links Demo.order (list_to_set Demo.seeds) (Demo.fresh 1 3) in
  r.1 = None /\
  Queue.items (todo r.2) = Queue.items (todo (Demo.fresh 1 3)) ++ enqueued (Demo.fresh 1 3) r.2.
Proof.
  assert (H1 : iter_ok Demo.order) by (intros X; reflexivity).
  split; [done|].
  destruct (on_found_links_returns_none Demo.order (list_to_set Demo.seeds)
              (Demo.fresh 1 3) H1) as (Hn & Hq & _).
  by split.
Defined.


Lemma refilter_stable_iff_witness :
  let filter := UrlFilterer.py_filter_url Urllib.check_bracketed_host Urllib.nfkc_ok Demo.filterer in
  filter "http://localhost/dir/page.html" "x.html" = Ok (Some "http://localhost/dir/x.html") /\
  (filter "http://localhost/dir/page.html" "http://localhost/dir/x.html"
     = Ok (Some "http://localhost/dir/x.html") <->
   exists joined frag,
     Urllib.urljoin Urllib.check_bracketed_host Urllib.nfkc_ok
       "http://localhost/dir/page.html" "http://localhost/dir/x.html" = Ok joined /\
     Urllib.urldefrag Urllib.check_bracketed_host Urllib.nfkc_ok joined
       = Ok ("http://localhost/dir/x.html", frag)).
Proof.
  intros filter.
  assert (H0 : filter "http://localhost/dir/page.html" "x.html"
               = Ok (Some "http://localhost/dir/x.html")) by (by vm_compute).
  split; [exact H0|].
  exact (refilter_stable_iff _ _ _ _ Demo.filterer
           "http://localhost/dir/page.html" "x.html" "http://localhost/dir/x.html" H0).
Defined.

End DemoRun.
